(** * A shallow embedding of wgpu_memory (src/simple.rs, src/auto_drop.rs, src/lib.rs)

    Conventions of the embedding:
    - [usize] is [nat]. Every subtraction the source performs is on values
      where it cannot underflow in the states considered below; [Range::len]
      of a [Range<usize>] is [end - start] saturated at 0, which is exactly
      nat subtraction.
    - [Vec<u8>] is [list byte]; [Vec<Range<usize>>] is a list of ranges.
    - [SlotMap<DefaultKey, Range<usize>>] is a [gmap nat AddressRange]
      together with the next fresh key: a slotmap never hands out a key
      equal to one it handed out before (removed slots are reused with a
      bumped version), which the monotone counter models.
    - A Rust panic (indexing a slotmap with a dead key, [Vec::drain] with an
      out-of-bounds range, slicing out of bounds) is [None].
    - [core::mem::size_of::<T>()] is the section variable [esize].
    - The device buffer collaborator ([upload_or_resize],
      [create_buffer_init]) is recorded as a trace of [Transport] calls. *)

From stdpp Require Import base gmap list sorting.
From Stdlib Require Import Strings.Byte.
From Stdlib Require Import ZArith.

Record AddressRange := mkRange { rstart : nat; rend : nat }.

#[global] Instance AddressRange_eq_dec : EqDecision AddressRange.
Proof. intros [a b] [c d]. unfold Decision. decide equality; apply Nat.eq_dec. Defined.

(** [Range::len] *)
Definition range_len (r : AddressRange) : nat := rend r - rstart r.

(** [data[range]] for an in-bounds range *)
Definition slice (d : list byte) (r : AddressRange) : list byte :=
  take (range_len r) (drop (rstart r) d).

(** Calls the allocator makes to the device buffer collaborator. *)
Inductive Transport :=
| UploadOrResize (bytes : list byte)     (* upload_or_resize(queue, device, buffer, bytes) *)
| CreateBufferInit (bytes : list byte).  (* device.create_buffer_init(.. contents: bytes ..) *)

(** [SimpleGpuMemory<T>] without the device buffer handle. *)
Record SimpleGpuMemory := mkMem {
  data : list byte;
  available_ranges : list AddressRange;
  used_ranges : gmap nat AddressRange;
  next_key : nat;                  (* slotmap key supply *)
  allocated_count : nat;
  mutated : bool
}.

Definition set_mutated (b : bool) (s : SimpleGpuMemory) : SimpleGpuMemory :=
  mkMem (data s) (available_ranges s) (used_ranges s) (next_key s) (allocated_count s) b.

(** [Vec::insert(index, x)] (panics when index > len; only called with a
    position returned by [position], so always in range) *)
Definition vec_insert {A} (i : nat) (x : A) (l : list A) : list A :=
  take i l ++ x :: drop i l.

(** [Vec::drain(range)]: removes [range] from the vector; panics when
    [start > end] or [end > len]. *)
Definition drain (r : AddressRange) (d : list byte) : option (list byte) :=
  if (rstart r <=? rend r) && (rend r <=? length d)
  then Some (take (rstart r) d ++ drop (rend r) d) else None.

(** The loop body of [merge_available_ranges] run on [lleft] =
    [available_ranges[index]] and the entries after it:
    while the next entry starts at or before [lleft.end], remove it and
    widen [lleft] to the union. *)
Fixpoint merge_into (lleft : AddressRange) (rest : list AddressRange) : list AddressRange :=
  match rest with
  | [] => [lleft]
  | rright :: rest' =>
      if rstart rright <=? rend lleft
      then merge_into (mkRange (Nat.min (rstart lleft) (rstart rright))
                               (Nat.max (rend lleft) (rend rright))) rest'
      else lleft :: rest
  end.

(** [SimpleGpuMemory::merge_available_ranges] *)
Definition merge_available_ranges (index : nat) (ar : list AddressRange) : list AddressRange :=
  match drop index ar with
  | [] => ar
  | lleft :: rest => take index ar ++ merge_into lleft rest
  end.

(** [SimpleGpuMemory::make_range_available] *)
Definition make_range_available (range : AddressRange) (ar : list AddressRange)
  : list AddressRange :=
  match list_find (fun other_range => rstart other_range <= rend range) ar with
  | Some (other_range_index, _) =>
      merge_available_ranges other_range_index (vec_insert other_range_index range ar)
  | None => ar ++ [range]
  end.

(** [.iter().enumerate().rev().find_map(|(i, range)| (range.len() >= size).then_some(i))]
    started at index [i]: the last index whose range is long enough. *)
Fixpoint rfind_fit (size i : nat) (l : list AddressRange) : option nat :=
  match l with
  | [] => None
  | r :: l' =>
      match rfind_fit size (S i) l' with
      | Some j => Some j
      | None => if size <=? range_len r then Some i else None
      end
  end.

(** The shift applied by [fix_sequence] to a used range for the gap [range]. *)
Definition shift_range (range used_range : AddressRange) : AddressRange :=
  if rend range <=? rstart used_range
  then mkRange (rstart used_range - range_len range) (rend used_range - range_len range)
  else used_range.

(** The loop of [fix_sequence] over [available_ranges.drain(..).rev()]. *)
Fixpoint fix_loop (rs : list AddressRange) (d : list byte) (u : gmap nat AddressRange)
  : option (list byte * gmap nat AddressRange) :=
  match rs with
  | [] => Some (d, u)
  | range :: rs' =>
      let u' := shift_range range <$> u in
      match drain range d with
      | Some d' => fix_loop rs' d' u'
      | None => None
      end
  end.

(** [SimpleGpuMemory::fix_sequence] *)
Definition fix_sequence (s : SimpleGpuMemory) : option SimpleGpuMemory :=
  match fix_loop (reverse (available_ranges s)) (data s) (used_ranges s) with
  | Some (d, u) => Some (mkMem d [] u (next_key s) (allocated_count s) (mutated s))
  | None => None
  end.

(** Optimization strategies; only [Truncate] is embedded. *)
Inductive Strategy := Truncate.

(** [SimpleGpuMemory::optimize(Truncate, ..)]: [shrink_to_fit] changes only
    the capacity, which the embedding does not track. *)
Definition optimize (strategy : Strategy) (s : SimpleGpuMemory)
  : option (SimpleGpuMemory * list Transport) :=
  match strategy with
  | Truncate =>
      match fix_sequence s with
      | Some s' => Some (s', [CreateBufferInit (data s')])
      | None => None
      end
  end.

(** [GpuMemory::upload] for [SimpleGpuMemory] *)
Definition upload (s : SimpleGpuMemory) : option (SimpleGpuMemory * list Transport) :=
  if negb (mutated s) then Some (s, []) else
  match fix_sequence s with
  | Some s' => Some (set_mutated false s', [UploadOrResize (data s')])
  | None => None
  end.

Section Allocator.

(** [core::mem::size_of::<T>()] *)
Variable esize : nat.

(** [SimpleGpuMemory::new] *)
Definition new_mem : SimpleGpuMemory := mkMem [] [] ∅ 0 0 false.

(** [SimpleGpuMemory::allocate] *)
Definition allocate (count : nat) (s : SimpleGpuMemory) : SimpleGpuMemory * nat :=
  let size := esize * count in
  let '(d, ar, range) :=
    match rfind_fit size 0 (available_ranges s) with
    | Some range_index =>
        match available_ranges s !! range_index with
        | Some r =>
            if negb (range_len r =? size)
            then (data s, <[range_index := mkRange (rstart r) (rend r - size)]> (available_ranges s),
                  mkRange (rend r - size) (rend r))
            else (data s, delete range_index (available_ranges s), r)
        | None => (data s, available_ranges s, mkRange 0 0) (* unreachable *)
        end
    | None =>
        let start := length (data s) in
        (data s ++ repeat Byte.x00 size, available_ranges s, mkRange start (start + size))
    end in
  let key := next_key s in
  (mkMem d ar (<[key := range]> (used_ranges s)) (S key) (allocated_count s + count) true, key).

(** [GpuMemory::len] and [GpuMemory::size] *)
Definition len (s : SimpleGpuMemory) : nat := allocated_count s.
Definition size (s : SimpleGpuMemory) : nat := len s * esize.

(** [SimpleGpuMemory::len_of]; indexing a dead key panics *)
Definition len_of (s : SimpleGpuMemory) (index : nat) : option nat :=
  match used_ranges s !! index with
  | Some r => Some (range_len r / esize)
  | None => None
  end.

(** [SimpleGpuMemory::free] *)
Definition free (index : nat) (s : SimpleGpuMemory) : SimpleGpuMemory :=
  match used_ranges s !! index with
  | Some range =>
      mkMem (data s) (make_range_available range (available_ranges s))
            (delete index (used_ranges s)) (next_key s)
            (allocated_count s - range_len range / esize) true
  | None => set_mutated true s
  end.

(** [SimpleGpuMemory::resize]: returns the new state and the new value of
    [*index]. *)
Definition resize (index : nat) (len : nat) (s : SimpleGpuMemory)
  : option (SimpleGpuMemory * nat) :=
  let size := len * esize in
  match used_ranges s !! index with
  | None => None
  | Some range =>
      match Nat.compare (range_len range) size with
      | Lt => Some (allocate len (free index s))
      | Eq => Some (s, index)
      | Gt =>
          let free_range := mkRange (rstart range) (rend range - size) in
          Some (mkMem (data s)
                      (make_range_available free_range (available_ranges s))
                      (<[index := mkRange (rend range - size) (rend range)]> (used_ranges s))
                      (next_key s)
                      (allocated_count s - range_len free_range / esize)
                      true, index)
      end
  end.

(** The bytes [get(index)] views, or [None] where [get] panics. *)
Definition handle_content (s : SimpleGpuMemory) (index : nat) : option (list byte) :=
  match used_ranges s !! index with
  | Some r =>
      if (rstart r <=? rend r) && (rend r <=? length (data s))
      then Some (slice (data s) r) else None
  | None => None
  end.

(** States reachable from [new] by allocate/free/resize. *)
Inductive reachable : SimpleGpuMemory -> Prop :=
| reach_new : reachable new_mem
| reach_allocate s n : reachable s -> reachable (fst (allocate n s))
| reach_free s k : reachable s -> reachable (free k s)
| reach_resize s k n s' k' : reachable s -> resize k n s = Some (s', k') -> reachable s'.

End Allocator.

(** ** The ownership-tracked decorator [AutoDropping<T, M>] over [SimpleGpuMemory] *)
Module AutoDrop.

(** [AutoDroppingAddressId]: the inner slotmap key and the [Arc<()>]
    allocation used as liveness token ([parent] is the single shared
    [Weak] pointer of the world below). *)
Record AutoDroppingAddressId := mkId { inner : nat; refcount : nat }.

(** The shared heap the decorator lives in: the backing store behind
    [Arc<RwLock<M>>] ([None] once the [AutoDropping] has been dropped, so
    that [Weak::upgrade] fails), and the strong count of every [Arc<()>]
    token allocated so far. *)
Record World := mkWorld {
  store : option SimpleGpuMemory;
  strong : gmap nat nat;
  next_token : nat
}.

Section Decorator.
Variable esize : nat.

(** [Arc::new(())] *)
Definition arc_new (w : World) : World * nat :=
  (mkWorld (store w) (<[next_token w := 1]> (strong w)) (S (next_token w)), next_token w).

(** [Arc::strong_count] *)
Definition strong_count (w : World) (t : nat) : nat :=
  match strong w !! t with Some n => n | None => 0 end.

(** [AutoDropping::new] *)
Definition new_world : World := mkWorld (Some new_mem) ∅ 0.

(** [AutoDropping::allocate]; [None] models a use of a dropped decorator,
    which the borrow checker rules out. *)
Definition allocate (count : nat) (w : World) : option (World * AutoDroppingAddressId) :=
  match store w with
  | None => None
  | Some m =>
      let '(m', id) := allocate esize count m in
      let '(w', t) := arc_new (mkWorld (Some m') (strong w) (next_token w)) in
      Some (w', mkId id t)
  end.

(** [<AutoDroppingAddressId as Clone>::clone] *)
Definition clone (h : AutoDroppingAddressId) (w : World) : World * AutoDroppingAddressId :=
  let '(w', t) := arc_new w in (w', mkId (inner h) t).

(** [<AutoDroppingAddressId as Drop>::drop] followed by the drop of the
    [refcount] field, which decrements the strong count. *)
Definition drop (h : AutoDroppingAddressId) (w : World) : World :=
  let w1 :=
    if strong_count w (refcount h) =? 1 then
      match store w with
      | Some parent => mkWorld (Some (free esize (inner h) parent)) (strong w) (next_token w)
      | None => w
      end
    else w in
  mkWorld (store w1) (alter Nat.pred (refcount h) (strong w1)) (next_token w1).

(** [AutoDropping::get]: the bytes seen through the inner key. *)
Definition get (h : AutoDroppingAddressId) (w : World) : option (list byte) :=
  match store w with
  | Some m => handle_content m (inner h)
  | None => None
  end.

(** [AutoDropping::size] *)
Definition size (w : World) : option nat :=
  match store w with
  | Some m => Some (size esize m)
  | None => None
  end.

(** [AutoDropping::free]: the body only binds the handle to [_] (which does
    not move it) and logs a warning; the by-value [index] then goes out of
    scope at the end of the call, which runs its [Drop]. *)
Definition free (h : AutoDroppingAddressId) (w : World) : World := drop h w.

(** [AutoDropping::resize]: resizes through [&mut index.inner], so only
    the handle passed in receives the new inner key; its token is kept. *)
Definition resize (h : AutoDroppingAddressId) (len : nat) (w : World)
  : option (World * AutoDroppingAddressId) :=
  match store w with
  | Some m =>
      match resize esize (inner h) len m with
      | Some (m', k') => Some (mkWorld (Some m') (strong w) (next_token w), mkId k' (refcount h))
      | None => None
      end
  | None => None
  end.

End Decorator.
End AutoDrop.

(** ** The remaining operations of [SimpleGpuMemory] *)

Section Operations.
Variable esize : nat.

(** [SimpleGpuMemory::get]: sets [mutated], indexes the registry (a dead
    key panics) and borrows [data[range.start..range.end]] (out of bounds
    panics). The mutable view is represented by the range it borrows;
    [bytemuck::cast_slice_mut] reinterprets those bytes in place. *)
Definition get (index : nat) (s : SimpleGpuMemory) : option (SimpleGpuMemory * AddressRange) :=
  let s1 := set_mutated true s in
  match used_ranges s1 !! index with
  | Some range =>
      if (rstart range <=? rend range) && (rend range <=? length (data s1))
      then Some (s1, range) else None
  | None => None
  end.

(** A caller's [view.copy_from_slice(bytes)] through the view [get]
    returned: panics unless the lengths agree, and otherwise overwrites
    exactly the borrowed bytes. *)
Definition write_view (range : AddressRange) (bytes : list byte) (s : SimpleGpuMemory)
  : option SimpleGpuMemory :=
  if length bytes =? range_len range
  then Some (mkMem (take (rstart range) (data s) ++ bytes ++ drop (rend range) (data s))
                   (available_ranges s) (used_ranges s) (next_key s) (allocated_count s) (mutated s))
  else None.


End Operations.

(** The two key functions of [SimpleGpuMemory::sort] ([_sort_desc] and
    [_sort_asc]) on an [(key, &range)] pair. The [as isize] cast is exact:
    a [Vec] never holds more than [isize::MAX] bytes. *)
Definition sort_key (descending : bool) (kr : nat * AddressRange) : Z :=
  if descending then (- Z.of_nat (range_len kr.2))%Z else Z.of_nat (range_len kr.2).

(** The order [sorted_by_key] sorts by. *)
Definition key_le (descending : bool) (a b : nat * AddressRange) : Prop :=
  (sort_key descending a <= sort_key descending b)%Z.

#[global] Instance key_le_dec (descending : bool) : RelDecision (key_le descending).
Proof. intros a b. unfold key_le. apply Z_le_dec. Defined.

(** [.sorted_by_key(key)]: a stable sort by the key. *)
Definition sorted_by_key (descending : bool) (l : list (nat * AddressRange))
  : list (nat * AddressRange) :=
  merge_sort (key_le descending) l.

(** The loop of [sort] over the sorted [(key, range)] pairs, building
    [new_data] and re-registering each key at its new place;
    [&self.data[range]] panics out of bounds. *)
Fixpoint sort_loop (d : list byte) (l : list (nat * AddressRange)) (new_data : list byte)
  (u : gmap nat AddressRange) : option (list byte * gmap nat AddressRange) :=
  match l with
  | [] => Some (new_data, u)
  | (key, range) :: l' =>
      if (rstart range <=? rend range) && (rend range <=? length d)
      then
        let start := length new_data in
        let new_data' := new_data ++ slice d range in
        sort_loop d l' new_data' (<[key := mkRange start (length new_data')]> u)
      else None
  end.

(** [SimpleGpuMemory::sort]. The registry is iterated as [map_to_list]
    lists it; slotmap iterates by slot, an order the key model does not
    record, and the properties below hold for any iteration order. *)
Definition sort (descending : bool) (s : SimpleGpuMemory) : option SimpleGpuMemory :=
  match sort_loop (data s) (sorted_by_key descending (map_to_list (used_ranges s)))
                  [] (used_ranges s) with
  | Some (new_data, u) =>
      Some (mkMem new_data [] u (next_key s) (allocated_count s) (mutated s))
  | None => None
  end.

(** The full [Strategy] enum and [SimpleGpuMemory::optimize]. *)
Module Strategies.

Inductive Strategy := Truncate | SortSizeDescending | SortSizeAscending.

Definition optimize (strategy : Strategy) (s : SimpleGpuMemory)
  : option (SimpleGpuMemory * list Transport) :=
  match strategy with
  | Truncate =>
      match fix_sequence s with
      | Some s' => Some (s', [CreateBufferInit (data s')])
      | None => None
      end
  | SortSizeDescending =>
      match sort true s with Some s' => Some (s', []) | None => None end
  | SortSizeAscending =>
      match sort false s with Some s' => Some (s', []) | None => None end
  end.

End Strategies.

(** ** Properties stated over allocator states *)

Definition in_range (r : AddressRange) (x : nat) : Prop := rstart r <= x < rend r.

(** Used and free ranges are pairwise disjoint and, with an unclaimed tail
    [tail, data.len()), partition [0, data.len()). *)
Definition partition_inv (s : SimpleGpuMemory) : Prop :=
  (forall k1 k2 r1 r2 x, k1 <> k2 -> used_ranges s !! k1 = Some r1 ->
     used_ranges s !! k2 = Some r2 -> ~ (in_range r1 x /\ in_range r2 x)) /\
  (forall i j r1 r2 x, i <> j -> available_ranges s !! i = Some r1 ->
     available_ranges s !! j = Some r2 -> ~ (in_range r1 x /\ in_range r2 x)) /\
  (forall k i r1 r2 x, used_ranges s !! k = Some r1 ->
     available_ranges s !! i = Some r2 -> ~ (in_range r1 x /\ in_range r2 x)) /\
  exists tail, tail <= length (data s) /\
    (forall k r, used_ranges s !! k = Some r -> rend r <= tail) /\
    (forall i r, available_ranges s !! i = Some r -> rend r <= tail) /\
    (forall x, x < tail -> (exists k r, used_ranges s !! k = Some r /\ in_range r x) \/
                         (exists i r, available_ranges s !! i = Some r /\ in_range r x)).

(** Consecutive free-list entries are strictly ascending and separated by
    a gap: sorted by start, no two adjacent or overlapping. *)
Definition sorted_coalesced (l : list AddressRange) : Prop :=
  forall i r1 r2, l !! i = Some r1 -> l !! S i = Some r2 -> rend r1 < rstart r2.

(** Three single-element allocations of a 4-byte element ([Entity] of the
    tests), at [0..4], [4..8] and [8..12] under keys 0, 1, 2. *)
Definition three_allocs : SimpleGpuMemory :=
  fst (allocate 4 1 (fst (allocate 4 1 (fst (allocate 4 1 (new_mem)))))).

Lemma three_allocs_reachable : reachable 4 three_allocs.
Proof. unfold three_allocs. repeat apply reach_allocate. apply reach_new. Qed.

(** *** C10 *)

(** C10: freeing a handle absent from the registry leaves the registry,
    the free list, [allocated_count] and [data] unchanged and only sets
    [mutated]; the next upload therefore performs a transport write. *)
Theorem free_stale_handle (esize : nat) (s : SimpleGpuMemory) (index : nat) :
  used_ranges s !! index = None ->
  free esize index s = set_mutated true s /\
  used_ranges (free esize index s) = used_ranges s /\
  available_ranges (free esize index s) = available_ranges s /\
  allocated_count (free esize index s) = allocated_count s /\
  data (free esize index s) = data s /\
  mutated (free esize index s) = true /\
  (forall s' w, upload (free esize index s) = Some (s', w) -> w <> []).
Proof.
  intros Hnone. unfold free. rewrite Hnone. cbn.
  split_and!; try reflexivity.
  intros s' w. unfold upload. cbn.
  destruct (fix_sequence _) as [s''|]; [|discriminate].
  intros [= _ <-]. discriminate.
Qed.

Lemma free_stale_handle_witness :
  used_ranges three_allocs !! 7 = None /\
  free 4 7 three_allocs = set_mutated true three_allocs.
Proof.
  split; [reflexivity|].
  apply (free_stale_handle 4 three_allocs 7). reflexivity.
Defined.

(** *** C8 *)

(** C8: [upload] is a no-op when [mutated] is false; otherwise it runs
    [fix_sequence], hands the compacted bytes to the transport once and
    clears [mutated], so a second upload writes nothing. *)
Theorem upload_gated (s : SimpleGpuMemory) :
  (mutated s = false -> upload s = Some (s, [])) /\
  (mutated s = true ->
     upload s = match fix_sequence s with
                | Some s' => Some (set_mutated false s', [UploadOrResize (data s')])
                | None => None
                end) /\
  (forall s1 w1, upload s = Some (s1, w1) ->
     length w1 <= 1 /\ mutated s1 = false /\ upload s1 = Some (s1, [])).
Proof.
  unfold upload. split_and!.
  - intros ->. reflexivity.
  - intros ->. reflexivity.
  - intros s1 w1. destruct (mutated s) eqn:Hm; cbn.
    + destruct (fix_sequence s) as [s'|]; [|discriminate].
      intros [= <- <-]. cbn. auto.
    + intros [= <- <-]. rewrite Hm. cbn. auto.
Qed.

Lemma upload_gated_witness :
  exists s1, upload three_allocs = Some (s1, [UploadOrResize (data three_allocs)]) /\
             upload s1 = Some (s1, []).
Proof.
  eexists. split; [vm_compute; reflexivity|].
  refine (proj2 (proj2 (proj2 (proj2 (upload_gated three_allocs)) _ _ _))).
  vm_compute. reflexivity.
Defined.

(** *** C1 *)

(** C1 (fails): allocate one element through the decorator, clone the
    handle and drop the original: the clone's token is a fresh [Arc<()>]
    with strong count 1, so the original's drop already frees the
    allocation; the surviving clone no longer reaches any data and
    [size()] has dropped to 0. *)
Theorem autodrop_clone_drop_original_frees :
  match AutoDrop.allocate 4 1 AutoDrop.new_world with
  | Some (w1, original) =>
      let '(w2, duplicate) := AutoDrop.clone original w1 in
      let w3 := AutoDrop.drop 4 original w2 in
      AutoDrop.inner duplicate = AutoDrop.inner original /\
      AutoDrop.get duplicate w2 = Some [Byte.x00; Byte.x00; Byte.x00; Byte.x00] /\
      AutoDrop.size 4 w2 = Some 4 /\
      AutoDrop.strong_count w3 (AutoDrop.refcount duplicate) = 1 /\
      AutoDrop.get duplicate w3 = None /\
      AutoDrop.size 4 w3 = Some 0
  | None => False
  end.
Proof. vm_compute. split_and!; reflexivity. Qed.

(** *** C2 *)

(** The state after freeing key 0 and then key 2 in [three_allocs]: the
    free range [8..12) is inserted before [0..4) and merged with it into
    [0..12), which covers the live range [4..8) of key 1. *)
Definition free_first_then_last : SimpleGpuMemory := free 4 2 (free 4 0 three_allocs).

(** C2 (fails): a reachable state in which a free range overlaps a used
    range, so used and free ranges do not partition [0, data.len()). *)
Lemma partition_inv_counterexample :
  ~ (forall s, reachable 4 s -> partition_inv s).
Proof.
  intros Hall.
  assert (Hr : reachable 4 free_first_then_last).
  { unfold free_first_then_last. apply reach_free, reach_free, three_allocs_reachable. }
  destruct (Hall _ Hr) as (_ & _ & Hdisj & _).
  apply (Hdisj 1 0 (mkRange 4 8) (mkRange 0 12) 4);
    [vm_compute; reflexivity | vm_compute; reflexivity | unfold in_range; cbn; lia].
Qed.

Lemma free_first_then_last_overlap :
  used_ranges free_first_then_last !! 1 = Some (mkRange 4 8) /\
  available_ranges free_first_then_last = [mkRange 0 12].
Proof. vm_compute. split; reflexivity. Qed.

(** *** C3 *)

(** C3 (fails): in [three_allocs], free key 2 and then key 0: no free
    entry starts at or before 4, so [0..4) is pushed after [8..12) and
    the free list is no longer sorted. *)
Lemma sorted_coalesced_counterexample :
  ~ (forall s k, reachable 4 s -> sorted_coalesced (available_ranges (free 4 k s))).
Proof.
  intros Hall.
  assert (Hr : reachable 4 (free 4 2 three_allocs)).
  { apply reach_free, three_allocs_reachable. }
  specialize (Hall _ 0 Hr 0 (mkRange 8 12) (mkRange 0 4)).
  assert (H : 12 < 0) by (apply Hall; vm_compute; reflexivity). lia.
Qed.

Lemma free_last_then_first_unsorted :
  available_ranges (free 4 0 (free 4 2 three_allocs)) = [mkRange 8 12; mkRange 0 4] /\
  upload (free 4 0 (free 4 2 three_allocs)) = None.
Proof. vm_compute. split; reflexivity. Qed.

(** *** C4 *)

Lemma rfind_fit_None (sz i : nat) (l : list AddressRange) :
  rfind_fit sz i l = None -> forall j r, l !! j = Some r -> range_len r < sz.
Proof.
  revert i. induction l as [|r0 l IH]; intros i H j r Hj; [discriminate|].
  cbn in H. destruct (rfind_fit sz (S i) l) eqn:E; [discriminate|].
  destruct (Nat.leb_spec sz (range_len r0)); [discriminate|].
  destruct j as [|j]; cbn in Hj.
  - injection Hj as <-. assumption.
  - exact (IH _ E j r Hj).
Qed.

Lemma rfind_fit_Some (sz i : nat) (l : list AddressRange) (j : nat) :
  rfind_fit sz i l = Some j ->
  i <= j /\ exists r, l !! (j - i) = Some r /\ sz <= range_len r /\
    forall j' r', j - i < j' -> l !! j' = Some r' -> range_len r' < sz.
Proof.
  revert i. induction l as [|r0 l IH]; intros i H; [discriminate|].
  cbn in H. destruct (rfind_fit sz (S i) l) eqn:E.
  - injection H as <-. destruct (IH _ E) as (Hle & r & Hr & Hsz & Hmax).
    split; [lia|]. exists r.
    replace (n - i) with (S (n - S i)) by lia. split_and!; [exact Hr|exact Hsz|].
    intros [|j'] r' Hlt Hj'; [lia|]. apply (Hmax j' r'); [lia|exact Hj'].
  - destruct (Nat.leb_spec sz (range_len r0)); [|discriminate].
    injection H as <-. split; [lia|]. exists r0. rewrite Nat.sub_diag.
    split_and!; [reflexivity|assumption|].
    intros [|j'] r' Hlt Hj'; [lia|]. exact (rfind_fit_None _ _ _ E j' r' Hj').
Qed.

(** The spec's last-fit choice: [i] is the rightmost free-list position
    whose range can hold [sz] bytes. *)
Definition last_fit (sz : nat) (l : list AddressRange) (i : nat) (r : AddressRange) : Prop :=
  l !! i = Some r /\ sz <= range_len r /\
  forall j r', i < j -> l !! j = Some r' -> range_len r' < sz.

Lemma last_fit_unique (sz : nat) (l : list AddressRange) (i j : nat) (r q : AddressRange) :
  last_fit sz l i r -> last_fit sz l j q -> i = j.
Proof.
  intros (Hi & Hszi & Hmi) (Hj & Hszj & Hmj).
  destruct (Nat.lt_total i j) as [Hlt|[Heq|Hlt]]; [|exact Heq|].
  - specialize (Hmi j q Hlt Hj). lia.
  - specialize (Hmj i r Hlt Hi). lia.
Qed.

(** Case analysis of [allocate] along its free-list search. *)
Lemma allocate_spec (esize count : nat) (s : SimpleGpuMemory) :
  let size := count * esize in
  let '(s', key) := allocate esize count s in
  key = next_key s /\ allocated_count s' = allocated_count s + count /\ mutated s' = true /\
  (forall i r, last_fit size (available_ranges s) i r ->
     data s' = data s /\
     (range_len r = size ->
        available_ranges s' = delete i (available_ranges s) /\
        used_ranges s' = <[key := r]> (used_ranges s)) /\
     (range_len r <> size ->
        available_ranges s' = <[i := mkRange (rstart r) (rend r - size)]> (available_ranges s) /\
        used_ranges s' = <[key := mkRange (rend r - size) (rend r)]> (used_ranges s))) /\
  ((forall i r, available_ranges s !! i = Some r -> range_len r < size) ->
     data s' = data s ++ repeat Byte.x00 size /\
     available_ranges s' = available_ranges s /\
     used_ranges s' = <[key := mkRange (length (data s)) (length (data s) + size)]> (used_ranges s)).
Proof.
  cbv zeta. unfold allocate. rewrite (Nat.mul_comm count esize).
  destruct (rfind_fit (esize * count) 0 (available_ranges s)) as [j|] eqn:E.
  - destruct (rfind_fit_Some _ _ _ _ E) as (_ & r0 & Hr0 & Hsz0 & Hmax0).
    rewrite Nat.sub_0_r in Hr0, Hmax0. rewrite Hr0.
    assert (Hfit : forall i r, last_fit (esize * count) (available_ranges s) i r -> i = j /\ r = r0).
    { intros i r Hlf. assert (i = j) as ->.
      { apply (last_fit_unique _ _ _ _ _ r0 Hlf). unfold last_fit. split_and!; eauto. }
      split; [reflexivity|]. destruct Hlf as (Hl & _). congruence. }
    destruct (Nat.eqb_spec (range_len r0) (esize * count)) as [Heq|Hne]; cbn.
    + split_and!; [reflexivity|reflexivity|reflexivity| |].
      * intros i r Hlf. destruct (Hfit i r Hlf) as [-> ->].
        split_and!; [reflexivity| |]; [intros _; split; reflexivity|intros; contradiction].
      * intros Hnone. specialize (Hnone j r0 Hr0). lia.
    + split_and!; [reflexivity|reflexivity|reflexivity| |].
      * intros i r Hlf. destruct (Hfit i r Hlf) as [-> ->].
        split_and!; [reflexivity|intros; contradiction|intros _; split; reflexivity].
      * intros Hnone. specialize (Hnone j r0 Hr0). lia.
  - cbn. split_and!; [reflexivity|reflexivity|reflexivity| |].
    + intros i r (Hl & Hsz & _). pose proof (rfind_fit_None _ _ _ E i r Hl). lia.
    + intros _. split_and!; reflexivity.
Qed.

(** C4: [allocate(count)] is last-fit: the rightmost free range of at
    least [count * element_size] bytes is used whole when its length is
    exact, and otherwise its trailing [size] bytes become the allocation
    while the leading remainder stays at the same list position; with no
    fitting range, [data] grows by [size] zero bytes and the allocation is
    placed there. *)
Theorem allocate_last_fit (esize count : nat) (s : SimpleGpuMemory) :
  let size := count * esize in
  let '(s', key) := allocate esize count s in
  key = next_key s /\ allocated_count s' = allocated_count s + count /\ mutated s' = true /\
  (forall i r, last_fit size (available_ranges s) i r ->
     data s' = data s /\
     (range_len r = size ->
        available_ranges s' = delete i (available_ranges s) /\
        used_ranges s' = <[key := r]> (used_ranges s)) /\
     (range_len r <> size ->
        available_ranges s' = <[i := mkRange (rstart r) (rend r - size)]> (available_ranges s) /\
        used_ranges s' = <[key := mkRange (rend r - size) (rend r)]> (used_ranges s))) /\
  ((forall i r, available_ranges s !! i = Some r -> range_len r < size) ->
     data s' = data s ++ repeat Byte.x00 size /\
     available_ranges s' = available_ranges s /\
     used_ranges s' = <[key := mkRange (length (data s)) (length (data s) + size)]> (used_ranges s)).
Proof. exact (allocate_spec esize count s). Qed.

Lemma allocate_last_fit_witness :
  last_fit 4 (available_ranges (free 4 1 three_allocs)) 0 (mkRange 4 8) /\
  available_ranges (fst (allocate 4 1 (free 4 1 three_allocs))) = [] /\
  used_ranges (fst (allocate 4 1 (free 4 1 three_allocs))) =
    <[3 := mkRange 4 8]> (used_ranges (free 4 1 three_allocs)).
Proof.
  assert (Hlf : last_fit 4 (available_ranges (free 4 1 three_allocs)) 0 (mkRange 4 8)).
  { vm_compute. split_and!; [reflexivity|lia|]. intros [|[|j]] r' Hj; try lia; discriminate. }
  pose proof (allocate_last_fit 4 1 (free 4 1 three_allocs)) as H.
  cbv zeta in H. destruct (allocate 4 1 (free 4 1 three_allocs)) as [s' key] eqn:E.
  destruct H as (Hkey & _ & _ & Hfit & _).
  destruct (Hfit 0 (mkRange 4 8) Hlf) as (_ & Hexact & _).
  destruct (Hexact eq_refl) as [Ha Hu]. cbn. split_and!; [exact Hlf| |].
  - rewrite Ha. reflexivity.
  - rewrite Hu, Hkey. reflexivity.
Defined.

(** *** C5 *)

Lemma slice_suffix (d : list byte) (r : AddressRange) (keep : nat) :
  rstart r <= rend r -> keep <= range_len r ->
  slice d (mkRange (rend r - keep) (rend r)) = drop (range_len r - keep) (slice d r).
Proof.
  intros Hse Hk. unfold slice, range_len in *. cbn.
  set (a := rend r - rstart r - keep).
  replace (rend r - rstart r) with (a + keep) by (unfold a; lia).
  rewrite <- take_drop_commute, drop_drop. subst a. f_equal; [lia|]. f_equal. lia.
Qed.

(** C5: shrinking a live handle from [old_count] to [new_count] elements
    frees the leading bytes [start, end - new_count * element_size), keeps
    the trailing bytes as the live range (the last [new_count] elements),
    leaves [data] untouched and decrements [allocated_count] by
    [old_count - new_count]. *)
Theorem resize_shrink_keeps_suffix (esize : nat) (s : SimpleGpuMemory) (index : nat)
    (range : AddressRange) (old_count new_count : nat) :
  0 < esize ->
  used_ranges s !! index = Some range ->
  range_len range = old_count * esize ->
  new_count < old_count ->
  resize esize index new_count s =
    Some (mkMem (data s)
            (make_range_available (mkRange (rstart range) (rend range - new_count * esize))
               (available_ranges s))
            (<[index := mkRange (rend range - new_count * esize) (rend range)]> (used_ranges s))
            (next_key s)
            (allocated_count s - (old_count - new_count))
            true, index) /\
  slice (data s) (mkRange (rend range - new_count * esize) (rend range)) =
    drop ((old_count - new_count) * esize) (slice (data s) range).
Proof.
  intros Hpos Hr Hlen Hlt.
  assert (Hmul : new_count * esize < old_count * esize) by (apply Nat.mul_lt_mono_pos_r; lia).
  split.
  - unfold resize. rewrite Hr, Hlen.
    rewrite (proj2 (Nat.compare_gt_iff _ _) Hmul).
    do 3 f_equal. unfold range_len in *. cbn.
    replace (rend range - new_count * esize - rstart range) with ((old_count - new_count) * esize)
      by (rewrite Nat.mul_sub_distr_r; lia).
    rewrite Nat.div_mul by lia. reflexivity.
  - rewrite slice_suffix by (unfold range_len in *; lia). f_equal. rewrite Hlen, Nat.mul_sub_distr_r. reflexivity.
Qed.

Lemma resize_shrink_keeps_suffix_witness :
  used_ranges (fst (allocate 4 10 new_mem)) !! 0 = Some (mkRange 0 40) /\
  resize 4 0 4 (fst (allocate 4 10 new_mem)) =
    Some (mkMem (data (fst (allocate 4 10 new_mem)))
            (make_range_available (mkRange 0 24) [])
            (<[0 := mkRange 24 40]> (used_ranges (fst (allocate 4 10 new_mem))))
            1 (10 - (10 - 4)) true, 0).
Proof.
  split; [reflexivity|].
  exact (proj1 (resize_shrink_keeps_suffix 4 (fst (allocate 4 10 new_mem)) 0 (mkRange 0 40) 10 4
                  ltac:(lia) eq_refl eq_refl ltac:(lia))).
Defined.

(** *** C6 *)

(** C6 (fails as stated): growing a handle does not update its registry
    entry in place: the old key is removed and the allocation is
    registered under a freshly minted key, which is what [*index] becomes. *)
Lemma resize_grow_new_key_counterexample :
  exists s' k',
    resize 4 0 2 (fst (allocate 4 1 new_mem)) = Some (s', k') /\
    k' <> 0 /\ used_ranges s' !! 0 = None /\ used_ranges s' !! k' = Some (mkRange 4 12).
Proof. vm_compute. eexists _, _. split; [reflexivity|]. split_and!; [lia|reflexivity|reflexivity]. Qed.

Lemma free_data (esize index : nat) (s : SimpleGpuMemory) :
  data (free esize index s) = data s /\ next_key (free esize index s) = next_key s /\
  used_ranges (free esize index s) = delete index (used_ranges s).
Proof.
  unfold free. destruct (used_ranges s !! index) eqn:E; cbn; [auto|].
  split_and!; [reflexivity|reflexivity|]. rewrite delete_id; [reflexivity|exact E].
Qed.

(** C6 as amended: growing a live handle frees its range and allocates
    [new_count] elements anew; the old key leaves the registry and the new
    range is registered under the fresh key [next_key], returned as the
    new handle; [data] is at most extended with zero bytes, so nothing of
    the old range is copied. *)
Theorem resize_grow_reallocates (esize : nat) (s : SimpleGpuMemory) (index : nat)
    (range : AddressRange) (new_count : nat) :
  used_ranges s !! index = Some range ->
  range_len range < new_count * esize ->
  exists s' r',
    resize esize index new_count s = Some (s', next_key s) /\
    (s', next_key s) = allocate esize new_count (free esize index s) /\
    used_ranges s' = <[next_key s := r']> (delete index (used_ranges s)) /\
    range_len r' = new_count * esize /\
    (data s' = data s \/ data s' = data s ++ repeat Byte.x00 (new_count * esize)).
Proof.
  intros Hr Hlt. unfold resize. rewrite Hr, (proj2 (Nat.compare_lt_iff _ _) Hlt).
  destruct (free_data esize index s) as (Hd & Hk & Hu).
  pose proof (allocate_spec esize new_count (free esize index s)) as H.
  cbv zeta in H. destruct (allocate esize new_count (free esize index s)) as [s' key] eqn:E.
  destruct H as (Hkey & _ & _ & Hfit & Hnone). rewrite Hk in Hkey. subst key.
  destruct (rfind_fit (new_count * esize) 0 (available_ranges (free esize index s))) as [j|] eqn:F.
  - destruct (rfind_fit_Some _ _ _ _ F) as (_ & r0 & Hr0 & Hsz0 & Hmax0).
    rewrite Nat.sub_0_r in Hr0, Hmax0.
    assert (Hlf : last_fit (new_count * esize) (available_ranges (free esize index s)) j r0)
      by (split_and!; eauto).
    destruct (Hfit j r0 Hlf) as (Hd' & Hexact & Hsplit).
    destruct (Nat.eq_dec (range_len r0) (new_count * esize)) as [Heq|Hne].
    + destruct (Hexact Heq) as [_ Hu']. exists s', r0.
      split_and!; [reflexivity|reflexivity|congruence|exact Heq|left; congruence].
    + destruct (Hsplit Hne) as [_ Hu']. exists s', (mkRange (rend r0 - new_count * esize) (rend r0)).
      split_and!; [reflexivity|reflexivity|congruence| |left; congruence].
      unfold range_len in *. cbn. lia.
  - destruct (Hnone (rfind_fit_None _ _ _ F)) as (Hd' & _ & Hu').
    eexists s', _. split_and!; [reflexivity|reflexivity|rewrite Hu', Hu, Hd; reflexivity| |].
    + unfold range_len. cbn. lia.
    + right. rewrite Hd', Hd. reflexivity.
Qed.

Lemma resize_grow_reallocates_witness :
  exists s' r',
    resize 4 0 2 (fst (allocate 4 1 new_mem)) = Some (s', 1) /\
    used_ranges s' = <[1 := r']> (delete 0 (used_ranges (fst (allocate 4 1 new_mem)))) /\
    range_len r' = 8.
Proof.
  destruct (resize_grow_reallocates 4 (fst (allocate 4 1 new_mem)) 0 (mkRange 0 4) 2
              eq_refl ltac:(vm_compute; lia)) as (s' & r' & H1 & _ & H3 & H4 & _).
  exists s', r'. split_and!; [exact H1|exact H3|exact H4].
Defined.

(** *** C9 *)

(** Sum of [f] over the ranges of a registry. *)
Definition map_sum (f : AddressRange -> nat) (u : gmap nat AddressRange) : nat :=
  map_fold (fun _ r acc => f r + acc) 0 u.

(** [sum of len_of over all live handles] *)
Definition live_count (esize : nat) (u : gmap nat AddressRange) : nat :=
  map_sum (fun r => range_len r / esize) u.

(** [sum of used range lengths] *)
Definition live_bytes (u : gmap nat AddressRange) : nat := map_sum range_len u.

Lemma map_sum_insert_fresh (f : AddressRange -> nat) (u : gmap nat AddressRange) k r :
  u !! k = None -> map_sum f (<[k := r]> u) = f r + map_sum f u.
Proof. intros Hk. unfold map_sum. rewrite map_fold_insert_L; [reflexivity| |exact Hk]. intros; lia. Qed.

Lemma map_sum_delete (f : AddressRange -> nat) (u : gmap nat AddressRange) k r :
  u !! k = Some r -> map_sum f u = f r + map_sum f (delete k u).
Proof. intros Hk. unfold map_sum. rewrite (map_fold_delete_L _ _ k r); [reflexivity| |exact Hk]. intros; lia. Qed.

Lemma map_sum_insert_existing (f : AddressRange -> nat) (u : gmap nat AddressRange) k r :
  map_sum f (<[k := r]> u) = f r + map_sum f (delete k u).
Proof. rewrite <- insert_delete_eq. apply map_sum_insert_fresh, lookup_delete_eq. Qed.

(** The counting invariant: every used range holds a whole number of
    elements, [allocated_count] is their total, and keys from [next_key]
    on are unused. *)
Definition count_inv (esize : nat) (s : SimpleGpuMemory) : Prop :=
  (forall k r, used_ranges s !! k = Some r -> exists m, range_len r = m * esize) /\
  allocated_count s = live_count esize (used_ranges s) /\
  (forall k, next_key s <= k -> used_ranges s !! k = None).

Lemma allocate_range (esize count : nat) (s : SimpleGpuMemory) :
  exists r, used_ranges (fst (allocate esize count s)) = <[next_key s := r]> (used_ranges s) /\
    range_len r = count * esize /\
    snd (allocate esize count s) = next_key s /\
    next_key (fst (allocate esize count s)) = S (next_key s) /\
    allocated_count (fst (allocate esize count s)) = allocated_count s + count.
Proof.
  assert (Hnk : next_key (fst (allocate esize count s)) = S (next_key s)).
  { unfold allocate.
    destruct (rfind_fit _ _ _) as [j|];
      [destruct (available_ranges s !! j) as [r|]; [destruct (negb _)|]|]; reflexivity. }
  pose proof (allocate_spec esize count s) as H. cbv zeta in H.
  destruct (allocate esize count s) as [s' key] eqn:E. cbn in Hnk |- *.
  destruct H as (Hkey & Hcnt & _ & Hfit & Hnone). subst key.
  destruct (rfind_fit (count * esize) 0 (available_ranges s)) as [j|] eqn:F.
  - destruct (rfind_fit_Some _ _ _ _ F) as (_ & r0 & Hr0 & Hsz0 & Hmax0).
    rewrite Nat.sub_0_r in Hr0, Hmax0.
    assert (Hlf : last_fit (count * esize) (available_ranges s) j r0) by (split_and!; eauto).
    destruct (Hfit j r0 Hlf) as (_ & Hexact & Hsplit).
    destruct (Nat.eq_dec (range_len r0) (count * esize)) as [Heq|Hne].
    + exists r0. destruct (Hexact Heq) as [_ Hu]. split_and!; auto.
    + exists (mkRange (rend r0 - count * esize) (rend r0)). destruct (Hsplit Hne) as [_ Hu].
      split_and!; auto. unfold range_len in *. cbn. lia.
  - destruct (Hnone (rfind_fit_None _ _ _ F)) as (_ & _ & Hu).
    eexists. split_and!; [exact Hu| |reflexivity|exact Hnk|exact Hcnt]. unfold range_len. cbn. lia.
Qed.

Lemma count_inv_new (esize : nat) : count_inv esize new_mem.
Proof. split_and!; cbn; [intros k r H; rewrite lookup_empty in H; discriminate|reflexivity|]. intros k _. apply lookup_empty. Qed.

Lemma count_inv_allocate (esize count : nat) (s : SimpleGpuMemory) :
  0 < esize -> count_inv esize s -> count_inv esize (fst (allocate esize count s)).
Proof.
  intros Hpos (Hmul & Hcnt & Hfresh).
  destruct (allocate_range esize count s) as (r & Hu & Hlen & _ & Hnk & Hac).
  assert (Hnone : used_ranges s !! next_key s = None) by (apply Hfresh; lia).
  unfold count_inv. split_and!.
  - intros k r'. rewrite Hu, lookup_insert. case_decide.
    + intros [= <-]. exists count. exact Hlen.
    + apply Hmul.
  - rewrite Hac, Hu. unfold live_count. rewrite map_sum_insert_fresh by exact Hnone.
    rewrite Hlen, Nat.div_mul by lia. rewrite Hcnt. unfold live_count. lia.
  - intros k Hk. rewrite Hu, lookup_insert_ne by lia. apply Hfresh. lia.
Qed.

Lemma count_inv_free (esize index : nat) (s : SimpleGpuMemory) :
  count_inv esize s -> count_inv esize (free esize index s).
Proof.
  intros (Hmul & Hcnt & Hfresh). unfold free, count_inv.
  destruct (used_ranges s !! index) as [range|] eqn:E; cbn.
  - split_and!.
    + intros k r. rewrite lookup_delete. case_decide; [discriminate|apply Hmul].
    + rewrite Hcnt. unfold live_count. rewrite (map_sum_delete _ _ index range E). lia.
    + intros k Hk. rewrite lookup_delete. case_decide; [reflexivity|apply Hfresh; exact Hk].
  - split_and!; assumption.
Qed.

Lemma count_inv_resize (esize index count : nat) (s s' : SimpleGpuMemory) (index' : nat) :
  0 < esize -> count_inv esize s -> resize esize index count s = Some (s', index') ->
  count_inv esize s'.
Proof.
  intros Hpos Hinv. pose proof Hinv as (Hmul & Hcnt & Hfresh). unfold resize.
  destruct (used_ranges s !! index) as [range|] eqn:E; [|discriminate].
  destruct (Hmul _ _ E) as [m Hm].
  destruct (Nat.compare (range_len range) (count * esize)) eqn:C.
  - intros [= <- _]. exact Hinv.
  - intros [= Ha]. replace s' with (fst (allocate esize count (free esize index s)))
      by (rewrite Ha; reflexivity).
    apply count_inv_allocate; [exact Hpos|]. apply count_inv_free. exact Hinv.
  - intros [= <- _]. unfold count_inv. cbn.
    apply Nat.compare_gt_iff in C as Hgt.
    assert (Hcm : count < m).
    { rewrite Hm in Hgt. apply (Nat.mul_lt_mono_pos_r esize); lia. }
    assert (Hse : rstart range + m * esize = rend range) by (unfold range_len in Hm; nia).
    split_and!; cbn.
    + intros k r. rewrite lookup_insert. case_decide.
      * intros [= <-]. exists count. unfold range_len. cbn. nia.
      * apply Hmul.
    + unfold live_count. rewrite map_sum_insert_existing.
      rewrite Hcnt. unfold live_count. rewrite (map_sum_delete _ _ index range E).
      unfold range_len at 1 3. cbn.
      replace (rend range - (rend range - count * esize)) with (count * esize) by nia.
      replace (rend range - count * esize - rstart range) with ((m - count) * esize)
        by (rewrite Nat.mul_sub_distr_r; nia).
      replace (rend range - rstart range) with (m * esize) by lia.
      rewrite !Nat.div_mul by lia. lia.
    + intros k Hk. rewrite lookup_insert_ne.
      * apply Hfresh. exact Hk.
      * intros ->. rewrite Hfresh in E; [discriminate|exact Hk].
Qed.

Lemma count_inv_reachable (esize : nat) (s : SimpleGpuMemory) :
  0 < esize -> reachable esize s -> count_inv esize s.
Proof.
  intros Hpos Hr. induction Hr as [| s n _ IH | s k _ IH | s k n s' k' _ IH Hres].
  - apply count_inv_new.
  - apply count_inv_allocate; assumption.
  - apply count_inv_free; assumption.
  - eapply count_inv_resize; eassumption.
Qed.

(** C9: in every state reachable by allocate/resize/free, [size()] is
    [allocated_count * element_size], [allocated_count] is the sum of
    [len_of] over the live handles, and [allocated_count * element_size]
    is the total byte length of the used ranges. *)
Theorem size_invariant (esize : nat) (s : SimpleGpuMemory) :
  0 < esize -> reachable esize s ->
  size esize s = allocated_count s * esize /\
  allocated_count s = live_count esize (used_ranges s) /\
  allocated_count s * esize = live_bytes (used_ranges s).
Proof.
  intros Hpos Hr. destruct (count_inv_reachable esize s Hpos Hr) as (Hmul & Hcnt & _).
  split_and!; [reflexivity|exact Hcnt|].
  rewrite Hcnt. unfold live_count, live_bytes, map_sum.
  clear Hcnt. revert Hmul. generalize (used_ranges s). intros u.
  induction u as [|k r u Hk IH] using map_ind.
  - intros _. reflexivity.
  - intros Hmul. rewrite !map_fold_insert_L by (assumption || (intros; lia)).
    destruct (Hmul k r (lookup_insert_eq _ _ _)) as [m Hm].
    rewrite Nat.mul_add_distr_r, IH.
    + rewrite Hm, Nat.div_mul by lia. reflexivity.
    + intros k' r' Hk'. apply (Hmul k'). rewrite lookup_insert_ne; [exact Hk'|]. congruence.
Qed.

Lemma size_invariant_witness :
  size 4 free_first_then_last = 4 /\ live_bytes (used_ranges free_first_then_last) = 4.
Proof.
  assert (Hr : reachable 4 free_first_then_last).
  { unfold free_first_then_last. apply reach_free, reach_free, three_allocs_reachable. }
  destruct (size_invariant 4 free_first_then_last ltac:(lia) Hr) as (H1 & _ & H3).
  rewrite H1, <- H3. split; vm_compute; reflexivity.
Defined.

(** *** C7 *)

(** A layout of the mirror buffer: consecutive segments, each a used range
    of a key or a free range. *)
Inductive Seg := SUsed (k : nat) | SFree.

(** [Some end] when the segments tile [pos, end) contiguously. *)
Fixpoint tiles (pos : nat) (lay : list (Seg * AddressRange)) : option nat :=
  match lay with
  | [] => Some pos
  | (_, r) :: lay' => if (rstart r =? pos) && (pos <=? rend r) then tiles (rend r) lay' else None
  end.

Fixpoint free_of (lay : list (Seg * AddressRange)) : list AddressRange :=
  match lay with
  | [] => []
  | (SFree, r) :: lay' => r :: free_of lay'
  | (SUsed _, _) :: lay' => free_of lay'
  end.

Fixpoint used_of (lay : list (Seg * AddressRange)) : list (nat * AddressRange) :=
  match lay with
  | [] => []
  | (SFree, _) :: lay' => used_of lay'
  | (SUsed k, r) :: lay' => (k, r) :: used_of lay'
  end.

(** The sorted/disjoint partition invariant as a layout: the used and
    free ranges of [s] tile [0, data.len()) in the order of [lay], and the
    free list is the free segments in that (ascending) order. *)
Definition layout (lay : list (Seg * AddressRange)) (s : SimpleGpuMemory) : Prop :=
  tiles 0 lay = Some (length (data s)) /\
  available_ranges s = free_of lay /\
  NoDup (used_of lay).*1 /\
  used_ranges s = list_to_map (used_of lay).

Definition shift_seg (f : AddressRange) (x : Seg * AddressRange) : Seg * AddressRange :=
  (x.1, shift_range f x.2).

Lemma used_of_app (l1 l2 : list (Seg * AddressRange)) :
  used_of (l1 ++ l2) = used_of l1 ++ used_of l2.
Proof. induction l1 as [|[[k|] r] l1 IH]; cbn; rewrite ?IH; reflexivity. Qed.

Lemma free_of_app (l1 l2 : list (Seg * AddressRange)) :
  free_of (l1 ++ l2) = free_of l1 ++ free_of l2.
Proof. induction l1 as [|[[k|] r] l1 IH]; cbn; rewrite ?IH; reflexivity. Qed.

Lemma used_of_shift (f : AddressRange) (l : list (Seg * AddressRange)) :
  used_of (shift_seg f <$> l) = (fun kr => (kr.1, shift_range f kr.2)) <$> used_of l.
Proof. induction l as [|[[k|] r] l IH]; cbn; rewrite ?IH; reflexivity. Qed.

Lemma free_of_shift (f : AddressRange) (l : list (Seg * AddressRange)) :
  free_of (shift_seg f <$> l) = shift_range f <$> free_of l.
Proof. induction l as [|[[k|] r] l IH]; cbn; rewrite ?IH; reflexivity. Qed.

Lemma elem_of_used_of (l : list (Seg * AddressRange)) k r :
  (k, r) ∈ used_of l -> (SUsed k, r) ∈ l.
Proof.
  induction l as [|[[k'|] r'] l IH]; cbn [used_of]; intros H.
  - inversion H.
  - apply elem_of_cons in H. apply elem_of_cons.
    destruct H as [H|H]; [left; congruence|right; auto].
  - apply elem_of_cons. right. auto.
Qed.

Lemma free_of_split (lay : list (Seg * AddressRange)) (fs : list AddressRange) (f : AddressRange) :
  free_of lay = fs ++ [f] ->
  exists P S, lay = P ++ (SFree, f) :: S /\ free_of P = fs /\ free_of S = [].
Proof.
  revert fs. induction lay as [|[[k|] r] lay IH]; intros fs H; cbn in H.
  - destruct fs; discriminate.
  - destruct (IH fs H) as (P & S & -> & HP & HS). exists ((SUsed k, r) :: P), S. auto.
  - destruct fs as [|r0 fs].
    + injection H as -> HS. exists [], lay. auto.
    + injection H as -> H. destruct (IH fs H) as (P & S & -> & HP & HS).
      exists ((SFree, r0) :: P), S. cbn. rewrite HP. auto.
Qed.

Lemma tiles_app (p : nat) (l1 l2 : list (Seg * AddressRange)) :
  tiles p (l1 ++ l2) = match tiles p l1 with Some m => tiles m l2 | None => None end.
Proof.
  revert p. induction l1 as [|[sg r] l1 IH]; intros p; cbn; [reflexivity|].
  destruct (_ && _); [apply IH|reflexivity].
Qed.

Lemma tiles_bounds (p n : nat) (l : list (Seg * AddressRange)) :
  tiles p l = Some n ->
  p <= n /\ forall sg r, (sg, r) ∈ l -> p <= rstart r /\ rstart r <= rend r /\ rend r <= n.
Proof.
  revert p. induction l as [|[sg0 r0] l IH]; intros p H; cbn in H.
  - injection H as ->. split; [lia|]. intros sg r Hin. inversion Hin.
  - destruct (Nat.eqb_spec (rstart r0) p); [|discriminate].
    destruct (Nat.leb_spec p (rend r0)); [|discriminate]. cbn in H.
    destruct (IH _ H) as [Hle Hall]. split; [lia|].
    intros sg r Hin. rewrite elem_of_cons in Hin. destruct Hin as [Hin|Hin].
    + injection Hin as -> ->. lia.
    + destruct (Hall sg r Hin). lia.
Qed.

Lemma tiles_shift (f : AddressRange) (p n : nat) (l : list (Seg * AddressRange)) :
  tiles p l = Some n -> rend f <= p -> range_len f <= rend f ->
  tiles (p - range_len f) (shift_seg f <$> l) = Some (n - range_len f).
Proof.
  revert p. induction l as [|[sg r] l IH]; intros p H Hp Hf; cbn in H |- *.
  - congruence.
  - destruct (Nat.eqb_spec (rstart r) p); [|discriminate].
    destruct (Nat.leb_spec p (rend r)); [|discriminate]. cbn in H.
    unfold shift_range. destruct (Nat.leb_spec (rend f) (rstart r)); [|lia]. cbn.
    destruct (Nat.eqb_spec (rstart r - range_len f) (p - range_len f)); [|lia].
    destruct (Nat.leb_spec (p - range_len f) (rend r - range_len f)); [|lia]. cbn.
    apply IH; [exact H|lia|exact Hf].
Qed.

Lemma tiles_concat (d : list byte) (p n : nat) (l : list (Seg * AddressRange)) :
  tiles p l = Some n ->
  concat ((fun x => slice d x.2) <$> l) = take (n - p) (drop p d).
Proof.
  revert p. induction l as [|[sg r] l IH]; intros p H; cbn in H |- *.
  - injection H as ->. rewrite Nat.sub_diag. reflexivity.
  - destruct (Nat.eqb_spec (rstart r) p); [|discriminate].
    destruct (Nat.leb_spec p (rend r)); [|discriminate]. cbn in H.
    destruct (tiles_bounds _ _ _ H) as [Hle _].
    rewrite (IH _ H). unfold slice, range_len. subst p.
    replace (drop (rend r) d) with (drop (rend r - rstart r) (drop (rstart r) d))
      by (rewrite drop_drop; f_equal; lia).
    rewrite take_take_drop. f_equal. lia.
Qed.

(** Two registry entries name the same key and view the same bytes. *)
Definition same_content (d d' : list byte) (kr kr' : nat * AddressRange) : Prop :=
  kr.1 = kr'.1 /\ slice d kr.2 = slice d' kr'.2.

(** A layout of the pair ([data], registry) used while compacting. *)
Definition desc (lay : list (Seg * AddressRange)) (d : list byte) (u : gmap nat AddressRange) : Prop :=
  tiles 0 lay = Some (length d) /\ NoDup (used_of lay).*1 /\
  (forall k r, u !! k = Some r <-> (k, r) ∈ used_of lay).

Lemma slice_drain_keep (d : list byte) (a b : nat) (r : AddressRange) :
  a <= length d -> rstart r <= rend r -> rend r <= a ->
  slice (take a d ++ drop b d) r = slice d r.
Proof.
  intros Ha Hr Hra. unfold slice, range_len.
  rewrite drop_app_le by (rewrite length_take; lia).
  rewrite take_app_le by (rewrite length_drop, length_take; lia).
  replace (take a d) with (take (rstart r + (a - rstart r)) d) by (f_equal; lia).
  rewrite <- take_drop_commute, take_take. f_equal. lia.
Qed.

Lemma slice_drain_shift (d : list byte) (a b : nat) (r : AddressRange) :
  a <= b -> b <= length d -> b <= rstart r -> rstart r <= rend r ->
  slice (take a d ++ drop b d) (mkRange (rstart r - (b - a)) (rend r - (b - a))) = slice d r.
Proof.
  intros Hab Hb Hbr Hr. unfold slice, range_len. cbn.
  replace (rend r - (b - a) - (rstart r - (b - a))) with (rend r - rstart r) by lia.
  rewrite drop_app_ge by (rewrite length_take; lia).
  rewrite length_take, drop_drop. do 2 f_equal. lia.
Qed.

Lemma shift_range_keep (f r : AddressRange) :
  rend r <= rstart f -> rstart f <= rend f -> rstart r <= rend r -> shift_range f r = r.
Proof.
  intros H1 H2 H3. unfold shift_range.
  destruct (Nat.leb_spec (rend f) (rstart r)); [|reflexivity].
  destruct r as [x y]. cbn in *. unfold range_len.
  replace (rend f - rstart f) with 0 by lia. f_equal; lia.
Qed.

Lemma fmap_keys_shift (h : AddressRange -> AddressRange) (l : list (nat * AddressRange)) :
  ((fun kr => (kr.1, h kr.2)) <$> l).*1 = l.*1.
Proof. induction l as [|kr l IH]; cbn; [reflexivity|]. rewrite IH. reflexivity. Qed.

Lemma Forall2_from_fmap {A B} (R : A -> B -> Prop) (g : A -> B) (l : list A) :
  (forall x, x ∈ l -> R x (g x)) -> Forall2 R l (g <$> l).
Proof.
  induction l as [|x l IH]; intros H; cbn; constructor.
  - apply H. apply elem_of_cons. left. reflexivity.
  - apply IH. intros y Hy. apply H. apply elem_of_cons. right. exact Hy.
Qed.

Lemma Forall2_same_content_refl (d : list byte) (l : list (nat * AddressRange)) :
  Forall2 (same_content d d) l l.
Proof. induction l; constructor; [split; reflexivity|assumption]. Qed.

Lemma Forall2_same_content_trans (d1 d2 d3 : list byte) (l1 l2 l3 : list (nat * AddressRange)) :
  Forall2 (same_content d1 d2) l1 l2 -> Forall2 (same_content d2 d3) l2 l3 ->
  Forall2 (same_content d1 d3) l1 l3.
Proof.
  intros H12. revert l3. induction H12 as [|x y l1 l2 [Hk Hs] _ IH]; intros l3 H23.
  - inversion H23. constructor.
  - inversion H23 as [|y' z l2' l3' [Hk' Hs'] H23']. subst. constructor.
    + split; congruence.
    + apply IH. exact H23'.
Qed.

(** One iteration of [fix_sequence]'s loop removes the last free segment
    [f] of the layout and shifts everything after it down by its length. *)
Lemma fix_step_layout (P S : list (Seg * AddressRange)) (f : AddressRange)
    (d : list byte) (u : gmap nat AddressRange) :
  desc (P ++ (SFree, f) :: S) d u -> free_of S = [] ->
  exists d1, drain f d = Some d1 /\
    desc (P ++ (shift_seg f <$> S)) d1 (shift_range f <$> u) /\
    free_of (P ++ (shift_seg f <$> S)) = free_of P /\
    Forall2 (same_content d d1) (used_of (P ++ (SFree, f) :: S)) (used_of (P ++ (shift_seg f <$> S))).
Proof.
  intros (Ht & Hnd & Hu) HS.
  rewrite tiles_app in Ht. destruct (tiles 0 P) as [a|] eqn:HP; [|discriminate].
  cbn in Ht. destruct (Nat.eqb_spec (rstart f) a) as [Ha|]; [|discriminate].
  destruct (Nat.leb_spec a (rend f)); [|discriminate]. cbn in Ht. subst a.
  destruct (tiles_bounds _ _ _ HP) as [_ HPb].
  destruct (tiles_bounds _ _ _ Ht) as [Hbn HSb].
  assert (HPkeep : forall k r, (k, r) ∈ used_of P -> shift_range f r = r).
  { intros k r Hin. destruct (HPb _ _ (elem_of_used_of _ _ _ Hin)) as (_ & Hr & Hre).
    apply shift_range_keep; lia. }
  assert (HSshift : forall k r, (k, r) ∈ used_of S ->
            shift_range f r = mkRange (rstart r - (rend f - rstart f)) (rend r - (rend f - rstart f))).
  { intros k r Hin. destruct (HSb _ _ (elem_of_used_of _ _ _ Hin)) as (Hbr & _).
    unfold shift_range. destruct (Nat.leb_spec (rend f) (rstart r)); [reflexivity|lia]. }
  exists (take (rstart f) d ++ drop (rend f) d). unfold desc.
  rewrite used_of_app in Hnd |- *. rewrite used_of_app, used_of_shift. cbn [used_of] in Hnd |- *.
  split_and!.
  - unfold drain. destruct (Nat.leb_spec (rstart f) (rend f)); [|lia].
    destruct (Nat.leb_spec (rend f) (length d)); [|lia]. reflexivity.
  - rewrite tiles_app, HP.
    pose proof (tiles_shift f (rend f) (length d) S Ht ltac:(lia) ltac:(unfold range_len; lia)) as Hs.
    unfold range_len in Hs.
    replace (rend f - (rend f - rstart f)) with (rstart f) in Hs by lia.
    rewrite Hs, length_app, length_take, length_drop. f_equal. lia.
  - rewrite fmap_app, fmap_keys_shift. rewrite fmap_app in Hnd. exact Hnd.
  - intros k r'. rewrite lookup_fmap, fmap_Some. rewrite elem_of_app, list_elem_of_fmap. split.
    + intros (r & Hr & ->). apply Hu in Hr. rewrite used_of_app in Hr. cbn [used_of] in Hr.
      apply elem_of_app in Hr. destruct Hr as [Hr|Hr].
      * left. rewrite (HPkeep _ _ Hr). exact Hr.
      * right. exists (k, r). split; [reflexivity|exact Hr].
    + intros [Hr|((k0 & r0) & Hkr & Hr)].
      * exists r'. split; [|symmetry; exact (HPkeep _ _ Hr)].
        apply Hu. rewrite used_of_app. apply elem_of_app. left. exact Hr.
      * injection Hkr as -> ->. exists r0. split; [|reflexivity].
        apply Hu. rewrite used_of_app. apply elem_of_app. right. exact Hr.
  - rewrite free_of_app, free_of_shift, HS. apply app_nil_r.
  - apply Forall2_app.
    + rewrite <- (list_fmap_id (used_of P)) at 2. apply Forall2_from_fmap.
      intros [k r] Hin. split; [reflexivity|]. cbn.
      destruct (HPb _ _ (elem_of_used_of _ _ _ Hin)) as (_ & Hr & Hre).
      symmetry. apply slice_drain_keep; lia.
    + rewrite used_of_app in Hu. apply Forall2_from_fmap.
      intros [k r] Hin. split; [reflexivity|]. cbn. rewrite (HSshift _ _ Hin).
      destruct (HSb _ _ (elem_of_used_of _ _ _ Hin)) as (Hbr & Hr & Hre).
      symmetry. apply slice_drain_shift; lia.
Qed.

(** The whole loop of [fix_sequence] on a layout whose free segments, in
    order, are the free list. *)
Lemma fix_loop_layout (fs : list AddressRange) :
  forall lay d u, desc lay d u -> free_of lay = fs ->
  exists lay' d' u', fix_loop (reverse fs) d u = Some (d', u') /\ desc lay' d' u' /\
    free_of lay' = [] /\ Forall2 (same_content d d') (used_of lay) (used_of lay').
Proof.
  induction fs as [|f fs IH] using rev_ind; intros lay d u Hd Hf.
  - exists lay, d, u. split_and!; [reflexivity|exact Hd|exact Hf|].
    apply Forall2_same_content_refl.
  - rewrite reverse_snoc. cbn [fix_loop].
    destruct (free_of_split _ _ _ Hf) as (P & S & -> & HP & HS).
    destruct (fix_step_layout P S f d u Hd HS) as (d1 & Hdr & Hd1 & Hf1 & HF).
    rewrite Hdr.
    destruct (IH _ _ _ Hd1 (eq_trans Hf1 HP)) as (lay' & d' & u' & Hl & Hd' & Hf' & HF').
    exists lay', d', u'. split_and!; [exact Hl|exact Hd'|exact Hf'|].
    eapply Forall2_same_content_trans; eassumption.
Qed.

Lemma slices_no_free (d : list byte) (l : list (Seg * AddressRange)) :
  free_of l = [] ->
  (fun x => slice d x.2) <$> l = (fun kr => slice d kr.2) <$> used_of l.
Proof.
  induction l as [|[[k|] r] l IH]; cbn; intros H; [reflexivity| |discriminate].
  rewrite IH by exact H. reflexivity.
Qed.

Lemma slices_same_content (d d' : list byte) (l l' : list (nat * AddressRange)) :
  Forall2 (same_content d d') l l' ->
  (fun kr => slice d kr.2) <$> l = (fun kr => slice d' kr.2) <$> l'.
Proof. induction 1 as [|x y l l' [_ Hs] _ IH]; cbn; [reflexivity|]. rewrite Hs, IH. reflexivity. Qed.

Lemma length_slices (d : list byte) (l : list (nat * AddressRange)) :
  (forall kr, kr ∈ l -> rstart kr.2 <= rend kr.2 /\ rend kr.2 <= length d) ->
  length (concat ((fun kr => slice d kr.2) <$> l)) = foldr (fun kr acc => range_len kr.2 + acc) 0 l.
Proof.
  induction l as [|kr l IH]; intros H; cbn; [reflexivity|].
  rewrite length_app, IH.
  - destruct (H kr ltac:(apply elem_of_cons; left; reflexivity)) as [H1 H2]. f_equal.
    unfold slice, range_len. rewrite length_take, length_drop. lia.
  - intros kr' Hin. apply H. apply elem_of_cons. right. exact Hin.
Qed.

Lemma map_sum_list_to_map (f : AddressRange -> nat) (l : list (nat * AddressRange)) :
  NoDup l.*1 -> map_sum f (list_to_map l) = foldr (fun kr acc => f kr.2 + acc) 0 l.
Proof.
  induction l as [|[k r] l IH]; intros Hnd; cbn; [reflexivity|].
  apply NoDup_cons in Hnd as [Hk Hnd].
  rewrite map_sum_insert_fresh by (apply not_elem_of_list_to_map_1; exact Hk).
  rewrite IH by exact Hnd. reflexivity.
Qed.

Lemma used_of_bounds (lay : list (Seg * AddressRange)) (n k : nat) (r : AddressRange) :
  tiles 0 lay = Some n -> (k, r) ∈ used_of lay -> rstart r <= rend r /\ rend r <= n.
Proof.
  intros Ht Hin. destruct (tiles_bounds _ _ _ Ht) as [_ Hb].
  destruct (Hb _ _ (elem_of_used_of _ _ _ Hin)). lia.
Qed.

(** C7: on a state whose used and free ranges tile [0, data.len()) with
    the free list in ascending order, [fix_sequence] (and hence
    [optimize(Truncate)]) leaves the free list empty, packs exactly the
    live bytes in their original order (so [data.len()] is the live byte
    total), and every handle views the same bytes as before. *)
Theorem fix_sequence_compacts (s : SimpleGpuMemory) (lay : list (Seg * AddressRange)) :
  layout lay s ->
  exists s', fix_sequence s = Some s' /\
    optimize Truncate s = Some (s', [CreateBufferInit (data s')]) /\
    available_ranges s' = [] /\
    data s' = concat ((fun kr => slice (data s) kr.2) <$> used_of lay) /\
    length (data s') = live_bytes (used_ranges s) /\
    (forall k, handle_content s' k = handle_content s k).
Proof.
  intros (Ht & Hav & Hnd & Hu).
  assert (Hd : desc lay (data s) (used_ranges s)).
  { split_and!; [exact Ht|exact Hnd|]. intros k r. rewrite Hu. symmetry.
    apply elem_of_list_to_map. exact Hnd. }
  destruct (fix_loop_layout _ lay _ _ Hd (eq_sym Hav))
    as (lay' & d' & u' & Hl & (Ht' & Hnd' & Hu') & Hf' & HF).
  assert (Hfix : fix_sequence s = Some (mkMem d' [] u' (next_key s) (allocated_count s) (mutated s))).
  { unfold fix_sequence. rewrite Hl. reflexivity. }
  assert (Hdata : d' = concat ((fun kr => slice (data s) kr.2) <$> used_of lay)).
  { rewrite (slices_same_content _ _ _ _ HF), <- (slices_no_free _ _ Hf').
    rewrite (tiles_concat d' 0 _ lay' Ht'), Nat.sub_0_r, drop_0, take_ge by lia. reflexivity. }
  eexists. split_and!; [exact Hfix|unfold optimize; rewrite Hfix; reflexivity|reflexivity| | |].
  - exact Hdata.
  - cbn. rewrite Hdata, length_slices.
    + unfold live_bytes. rewrite Hu, map_sum_list_to_map by exact Hnd. reflexivity.
    + intros [k r] Hin. exact (used_of_bounds _ _ _ _ Ht Hin).
  - intros k. unfold handle_content. cbn.
    destruct (used_ranges s !! k) as [r|] eqn:Ek.
    + assert (Hin : (k, r) ∈ used_of lay) by (apply (proj2 (proj2 Hd)); exact Ek).
      apply list_elem_of_lookup in Hin as [i Hi].
      destruct (Forall2_lookup_l _ _ _ _ _ HF Hi) as ([k' r'] & Hi' & Hk & Hs). cbn in Hk, Hs. subst k'.
      assert (Hin' : (k, r') ∈ used_of lay') by (apply list_elem_of_lookup; exists i; exact Hi').
      rewrite (proj2 (Hu' k r') Hin').
      destruct (used_of_bounds _ _ _ _ Ht' Hin') as [H1' H2'].
      assert (Hin0 : (k, r) ∈ used_of lay) by (apply list_elem_of_lookup; exists i; exact Hi).
      destruct (used_of_bounds _ _ _ _ Ht Hin0) as [H1 H2].
      rewrite (proj2 (Nat.leb_le _ _) H1'), (proj2 (Nat.leb_le _ _) H2').
      rewrite (proj2 (Nat.leb_le _ _) H1), (proj2 (Nat.leb_le _ _) H2). cbn. rewrite Hs. reflexivity.
    + destruct (u' !! k) as [r'|] eqn:Ek'; [|reflexivity]. exfalso.
      apply Hu' in Ek'. apply list_elem_of_lookup in Ek' as [i Hi'].
      destruct (Forall2_lookup_r _ _ _ _ _ HF Hi') as ([k0 r0] & Hi & Hk & _). cbn in Hk. subst k0.
      assert (Hin : (k, r0) ∈ used_of lay) by (apply list_elem_of_lookup; exists i; exact Hi).
      apply (proj2 (proj2 Hd)) in Hin. congruence.
Qed.

(** The layout of [three_allocs] after freeing the middle element. *)
Definition middle_freed_layout : list (Seg * AddressRange) :=
  [(SUsed 0, mkRange 0 4); (SFree, mkRange 4 8); (SUsed 2, mkRange 8 12)].

Lemma fix_sequence_compacts_witness :
  layout middle_freed_layout (free 4 1 three_allocs) /\
  exists s', fix_sequence (free 4 1 three_allocs) = Some s' /\ length (data s') = 8.
Proof.
  assert (Hl : layout middle_freed_layout (free 4 1 three_allocs)).
  { split_and!; [vm_compute; reflexivity|vm_compute; reflexivity| |vm_compute; reflexivity].
    apply (bool_decide_eq_true_1 _). vm_compute. reflexivity. }
  split; [exact Hl|].
  destruct (fix_sequence_compacts _ _ Hl) as (s' & H1 & _ & _ & _ & H5 & _).
  exists s'. split; [exact H1|]. rewrite H5. vm_compute. reflexivity.
Defined.

(** ** Further properties of the allocator and the decorator *)

(** *** Free-list insertion *)

Lemma merge_into_covers (lleft : AddressRange) (rest : list AddressRange) (x : nat) :
  (in_range lleft x \/ exists r, r ∈ rest /\ in_range r x) ->
  exists r, r ∈ merge_into lleft rest /\ in_range r x.
Proof.
  revert lleft. induction rest as [|rright rest IH]; intros lleft Hx; cbn.
  - destruct Hx as [Hx|(r & Hr & _)].
    + exists lleft. split; [apply list_elem_of_singleton; reflexivity|exact Hx].
    + inversion Hr.
  - destruct (Nat.leb_spec (rstart rright) (rend lleft)) as [Hle|Hgt].
    + apply IH. destruct Hx as [Hx|(r & Hr & Hx)].
      * left. unfold in_range in *. cbn. lia.
      * apply elem_of_cons in Hr as [->|Hr].
        -- left. unfold in_range in *. cbn. lia.
        -- right. exists r. split; assumption.
    + destruct Hx as [Hx|(r & Hr & Hx)].
      * exists lleft. split; [apply elem_of_cons; left; reflexivity|exact Hx].
      * exists r. split; [apply elem_of_cons; right; exact Hr|exact Hx].
Qed.

Lemma merge_into_length (lleft : AddressRange) (rest : list AddressRange) :
  length (merge_into lleft rest) <= S (length rest).
Proof.
  revert lleft. induction rest as [|rright rest IH]; intros lleft; cbn; [lia|].
  destruct (rstart rright <=? rend lleft); cbn; [specialize (IH (mkRange (Nat.min (rstart lleft) (rstart rright)) (Nat.max (rend lleft) (rend rright)))); lia|lia].
Qed.

(** X1: returning a range to the free list never loses free space: every
    byte offset in the returned range or in a free entry is still inside
    some free entry afterwards, and the list grows by at most one entry. *)
Theorem make_range_available_covers (range : AddressRange) (ar : list AddressRange) :
  (forall x, (in_range range x \/ exists r, r ∈ ar /\ in_range r x) ->
     exists r, r ∈ make_range_available range ar /\ in_range r x) /\
  length (make_range_available range ar) <= S (length ar).
Proof.
  unfold make_range_available.
  destruct (list_find (fun o => rstart o <= rend range) ar) as [[i o]|] eqn:F.
  - apply list_find_Some in F as (Hi & _ & _).
    assert (Hlt : i < length ar) by (apply lookup_lt_Some in Hi; exact Hi).
    assert (Htk : length (take i ar) = i) by (rewrite length_take; lia).
    assert (Hm : merge_available_ranges i (vec_insert i range ar)
                 = take i ar ++ merge_into range (drop i ar)).
    { unfold merge_available_ranges, vec_insert.
      rewrite (drop_app_length' _ _ i) by (symmetry; exact Htk).
      rewrite (take_app_length' _ _ i) by (symmetry; exact Htk). reflexivity. }
    rewrite Hm. split.
    + intros x Hx. destruct Hx as [Hx|(r & Hr & Hx)].
      * destruct (merge_into_covers range (drop i ar) x (or_introl Hx)) as (r' & Hr' & Hx').
        exists r'. split; [apply elem_of_app; right; exact Hr'|exact Hx'].
      * rewrite <- (take_drop i ar) in Hr. apply elem_of_app in Hr as [Hr|Hr].
        -- exists r. split; [apply elem_of_app; left; exact Hr|exact Hx].
        -- destruct (merge_into_covers range (drop i ar) x (or_intror (ex_intro _ r (conj Hr Hx))))
             as (r' & Hr' & Hx').
           exists r'. split; [apply elem_of_app; right; exact Hr'|exact Hx'].
    + rewrite length_app, Htk. pose proof (merge_into_length range (drop i ar)) as HL.
      rewrite length_drop in HL. lia.
  - split.
    + intros x [Hx|(r & Hr & Hx)].
      * exists range. split; [apply elem_of_app; right; apply list_elem_of_singleton; reflexivity|exact Hx].
      * exists r. split; [apply elem_of_app; left; exact Hr|exact Hx].
    + rewrite length_app. cbn. lia.
Qed.

(** *** Handle isolation for [free] and [allocate] *)

Lemma length_slice (d : list byte) (r : AddressRange) :
  rend r <= length d -> length (slice d r) = range_len r.
Proof. intros H. unfold slice, range_len. rewrite length_take, length_drop. lia. Qed.

Lemma lookup_slice (d : list byte) (r : AddressRange) (i : nat) :
  slice d r !! i = if decide (i < range_len r) then d !! (rstart r + i) else None.
Proof. unfold slice. rewrite lookup_take. case_decide; [apply lookup_drop|reflexivity]. Qed.

(** Two byte vectors agreeing on the offsets of [r] have the same slice at [r]. *)
Lemma slice_ext (d d' : list byte) (r : AddressRange) :
  (forall j, rstart r <= j < rend r -> d' !! j = d !! j) -> slice d' r = slice d r.
Proof.
  intros H. apply list_eq. intros i. rewrite !lookup_slice. case_decide; [|reflexivity].
  apply H. unfold range_len in *. lia.
Qed.

Lemma slice_app_l (d e : list byte) (r : AddressRange) :
  rend r <= length d -> slice (d ++ e) r = slice d r.
Proof. intros H. apply slice_ext. intros j Hj. apply lookup_app_l. lia. Qed.

Lemma allocate_data (esize count : nat) (s : SimpleGpuMemory) :
  exists z, data (fst (allocate esize count s)) = data s ++ z.
Proof.
  unfold allocate.
  destruct (rfind_fit _ _ _) as [j|];
    [destruct (available_ranges s !! j); [destruct (negb _)|]|]; cbn;
    first [exists []; rewrite app_nil_r; reflexivity | eexists; reflexivity].
Qed.

(** X2: [free(k)] makes [k] read as dead and leaves what every other key
    reads unchanged, byte for byte. *)
Theorem free_isolates (esize k : nat) (s : SimpleGpuMemory) :
  handle_content (free esize k s) k = None /\
  forall k', k' <> k -> handle_content (free esize k s) k' = handle_content s k'.
Proof.
  destruct (free_data esize k s) as (Hd & _ & Hu).
  unfold handle_content. rewrite Hd, Hu, lookup_delete_eq. split; [reflexivity|].
  intros k' Hne. rewrite lookup_delete_ne by congruence. reflexivity.
Qed.

(** X3: [allocate] never changes the bytes a live handle reads: it only
    registers the fresh key [next_key] and at most appends to [data]. *)
Theorem allocate_isolates (esize count k : nat) (s : SimpleGpuMemory) (c : list byte) :
  k <> next_key s -> handle_content s k = Some c ->
  handle_content (fst (allocate esize count s)) k = Some c.
Proof.
  intros Hne Hc. destruct (allocate_range esize count s) as (r0 & Hu & _).
  destruct (allocate_data esize count s) as [z Hd].
  unfold handle_content in *. rewrite Hu, lookup_insert_ne by congruence.
  destruct (used_ranges s !! k) as [r|]; [|discriminate].
  destruct (Nat.leb_spec (rstart r) (rend r)); [|discriminate].
  destruct (Nat.leb_spec (rend r) (length (data s))); [|discriminate]. cbn in Hc.
  rewrite Hd, length_app.
  rewrite (proj2 (Nat.leb_le (rend r) (length (data s) + length z))) by lia.
  cbn. rewrite slice_app_l by lia. exact Hc.
Qed.

Lemma allocate_isolates_witness :
  handle_content (fst (allocate 4 1 three_allocs)) 0 = Some [Byte.x00; Byte.x00; Byte.x00; Byte.x00].
Proof. apply (allocate_isolates 4 1 0 three_allocs); vm_compute; [discriminate|reflexivity]. Defined.

(** X4: [allocate], [free] and [resize] never remove or rewrite a byte of
    [data]: the old vector is always a prefix of the new one (only
    [upload] and [optimize] shrink it). *)
Theorem data_only_grows (esize : nat) (s : SimpleGpuMemory) :
  (forall count, data s `prefix_of` data (fst (allocate esize count s))) /\
  (forall k, data (free esize k s) = data s) /\
  (forall k n s' k', resize esize k n s = Some (s', k') -> data s `prefix_of` data s').
Proof.
  split_and!.
  - intros count. destruct (allocate_data esize count s) as [z Hd]. exists z. exact Hd.
  - intros k. apply (free_data esize k s).
  - intros k n s' k'. unfold resize.
    destruct (used_ranges s !! k) as [r|]; [|discriminate].
    destruct (Nat.compare _ _).
    + intros [= <- _]. reflexivity.
    + intros [= Ha]. destruct (allocate_data esize n (free esize k s)) as [z Hd].
      rewrite Ha in Hd. cbn in Hd. exists z. rewrite Hd, (proj1 (free_data esize k s)). reflexivity.
    + intros [= <- _]. reflexivity.
Qed.

(** *** Element counts read back *)

(** X5: the handle [allocate(count)] returns reports [count] elements. *)
Theorem len_of_allocate (esize count : nat) (s : SimpleGpuMemory) :
  0 < esize ->
  len_of esize (fst (allocate esize count s)) (snd (allocate esize count s)) = Some count.
Proof.
  intros Hpos. destruct (allocate_range esize count s) as (r & Hu & Hlen & Hkey & _).
  unfold len_of. rewrite Hu, Hkey, lookup_insert_eq, Hlen, Nat.div_mul by lia. reflexivity.
Qed.

Lemma len_of_allocate_witness :
  len_of 4 (fst (allocate 4 3 three_allocs)) (snd (allocate 4 3 three_allocs)) = Some 3.
Proof. apply (len_of_allocate 4 3 three_allocs). lia. Defined.

(** X6: after [resize(index, n)] the handle written back reports [n]
    elements, whether the range grew, shrank or stayed. *)
Theorem len_of_resize (esize k n : nat) (s s' : SimpleGpuMemory) (k' : nat) :
  0 < esize -> resize esize k n s = Some (s', k') -> len_of esize s' k' = Some n.
Proof.
  intros Hpos. unfold resize.
  destruct (used_ranges s !! k) as [r|] eqn:Ek; [|discriminate].
  destruct (Nat.compare (range_len r) (n * esize)) eqn:C.
  - intros [= <- <-]. apply Nat.compare_eq in C. unfold len_of. rewrite Ek, C, Nat.div_mul by lia. reflexivity.
  - intros [= Ha]. destruct (allocate_range esize n (free esize k s)) as (r' & Hu & Hlen & Hkey & _).
    rewrite Ha in Hu, Hkey. cbn in Hu, Hkey.
    unfold len_of. rewrite Hu, Hkey, lookup_insert_eq, Hlen, Nat.div_mul by lia. reflexivity.
  - intros [= <- <-]. apply Nat.compare_gt_iff in C. unfold len_of. cbn. rewrite lookup_insert_eq.
    unfold range_len in *. cbn. replace (rend r - (rend r - n * esize)) with (n * esize) by lia.
    rewrite Nat.div_mul by lia. reflexivity.
Qed.

Lemma len_of_resize_witness :
  exists s' k', resize 4 0 2 three_allocs = Some (s', k') /\ len_of 4 s' k' = Some 2.
Proof.
  eexists _, _. split; [vm_compute; reflexivity|].
  apply (len_of_resize 4 0 2 three_allocs); [lia|vm_compute; reflexivity].
Defined.

(** *** Writing through [get] *)

Lemma overwrite_lookup_out (d bytes : list byte) (a b j : nat) :
  a <= b <= length d -> length bytes = b - a -> (j < a \/ b <= j) ->
  (take a d ++ bytes ++ drop b d) !! j = d !! j.
Proof.
  intros Hab Hlen Hj. assert (Ht : length (take a d) = a) by (rewrite length_take; lia).
  destruct Hj as [Hj|Hj].
  - rewrite lookup_app_l by lia. apply lookup_take_lt. exact Hj.
  - rewrite lookup_app_r by lia. rewrite lookup_app_r by lia. rewrite lookup_drop.
    f_equal. lia.
Qed.

(** X7: [get(k)] sets [mutated]; writing a full view's worth of bytes
    through the view makes [k] read back exactly those bytes, keeps the
    length of [data], and leaves every live handle whose range is disjoint
    from [k]'s reading as before. *)
Theorem get_write_roundtrip (k : nat) (bytes : list byte) (s s1 : SimpleGpuMemory) (r : AddressRange) :
  get k s = Some (s1, r) -> length bytes = range_len r ->
  exists s2, write_view r bytes s1 = Some s2 /\ mutated s2 = true /\
    handle_content s2 k = Some bytes /\ length (data s2) = length (data s) /\
    forall k' r', used_ranges s !! k' = Some r' -> (rend r' <= rstart r \/ rend r <= rstart r') ->
      handle_content s2 k' = handle_content s k'.
Proof.
  unfold get. cbn. destruct (used_ranges s !! k) as [r0|] eqn:Ek; [|discriminate].
  destruct (Nat.leb_spec (rstart r0) (rend r0)) as [H1|]; [|discriminate].
  destruct (Nat.leb_spec (rend r0) (length (data s))) as [H2|]; [|discriminate].
  intros [= <- <-] Hlen. unfold write_view. rewrite (proj2 (Nat.eqb_eq _ _) Hlen). cbn.
  set (d2 := take (rstart r0) (data s) ++ bytes ++ drop (rend r0) (data s)).
  assert (Hl2 : length d2 = length (data s)).
  { unfold d2. rewrite !length_app, length_take, length_drop, Hlen. unfold range_len. lia. }
  eexists. split_and!; [reflexivity|reflexivity| |exact Hl2|].
  - unfold handle_content. cbn. rewrite Ek, Hl2.
    rewrite (proj2 (Nat.leb_le _ _) H1), (proj2 (Nat.leb_le _ _) H2). cbn. f_equal.
    apply list_eq. intros i. rewrite lookup_slice. case_decide as Hi.
    + unfold d2. rewrite lookup_app_r by (rewrite length_take; lia).
      rewrite length_take, lookup_app_l by lia. f_equal. lia.
    + symmetry. apply lookup_ge_None_2. lia.
  - intros k' r' Ek' Hdisj. unfold handle_content. cbn. rewrite Ek', Hl2.
    destruct ((rstart r' <=? rend r') && (rend r' <=? length (data s))) eqn:B; [|reflexivity].
    f_equal. apply slice_ext. intros j Hj. unfold d2.
    apply overwrite_lookup_out; [lia|unfold range_len in Hlen; lia|lia].
Qed.

Lemma get_write_roundtrip_witness :
  exists s2, write_view (mkRange 4 8) [Byte.x01; Byte.x02; Byte.x03; Byte.x04]
                        (set_mutated true three_allocs) = Some s2 /\
             handle_content s2 1 = Some [Byte.x01; Byte.x02; Byte.x03; Byte.x04].
Proof.
  destruct (get_write_roundtrip 1 [Byte.x01; Byte.x02; Byte.x03; Byte.x04] three_allocs
              (set_mutated true three_allocs) (mkRange 4 8))
    as (s2 & H1 & _ & H3 & _); [vm_compute; reflexivity|vm_compute; reflexivity|].
  exists s2. split; [exact H1|exact H3].
Defined.

(** *** Upload *)

(** X8: a successful [upload] leaves nothing more to upload: the next
    [upload] is a no-op issuing no transport call. *)
Theorem upload_idempotent (s s' : SimpleGpuMemory) (t : list Transport) :
  upload s = Some (s', t) -> upload s' = Some (s', []).
Proof.
  unfold upload. destruct (mutated s) eqn:M; cbn.
  - destruct (fix_sequence s) as [s''|]; [|discriminate]. intros [= <- _]. reflexivity.
  - intros [= <- _]. rewrite M. reflexivity.
Qed.

Lemma upload_idempotent_witness :
  exists s' t, upload three_allocs = Some (s', t) /\ upload s' = Some (s', []).
Proof.
  eexists _, _. split; [vm_compute; reflexivity|].
  apply (upload_idempotent three_allocs _ [UploadOrResize (data three_allocs)]).
  vm_compute. reflexivity.
Defined.

(** *** [is_empty] *)




(** *** The decorator's [free] and [resize] *)

(** X10: [AutoDropping::free] on a handle that was never cloned does free
    the allocation, through the handle's destructor: its inner key is dead
    and the element count and [size()] are back to their values before the
    [allocate]. *)
Theorem autodrop_free_frees (esize count : nat) (w w1 : AutoDrop.World)
  (h : AutoDrop.AutoDroppingAddressId) (m : SimpleGpuMemory) :
  0 < esize -> AutoDrop.store w = Some m -> AutoDrop.allocate esize count w = Some (w1, h) ->
  exists m', AutoDrop.store (AutoDrop.free esize h w1) = Some m' /\
    len_of esize m' (AutoDrop.inner h) = None /\
    allocated_count m' = allocated_count m /\
    AutoDrop.size esize (AutoDrop.free esize h w1) = AutoDrop.size esize w.
Proof.
  intros Hpos Hs. unfold AutoDrop.allocate. rewrite Hs.
  destruct (allocate_range esize count m) as (r & Hu & Hlen & Hkey & _ & Hac).
  destruct (allocate esize count m) as [m1 id] eqn:Ea. cbn in Hu, Hlen, Hkey, Hac |- *.
  intros [= <- <-]. unfold AutoDrop.free, AutoDrop.drop, AutoDrop.strong_count. cbn.
  rewrite lookup_insert_eq. cbn.
  assert (Hf : used_ranges m1 !! id = Some r) by (rewrite Hu, Hkey; apply lookup_insert_eq).
  eexists. split; [reflexivity|]. split_and!.
  - unfold len_of. rewrite (proj2 (proj2 (free_data esize id m1))), lookup_delete_eq. reflexivity.
  - unfold free. rewrite Hf. cbn. rewrite Hac, Hlen, Nat.div_mul by lia. lia.
  - unfold AutoDrop.size. rewrite Hs. cbn. unfold size, len, free. rewrite Hf. cbn.
    rewrite Hac, Hlen, Nat.div_mul by lia. f_equal. f_equal. lia.
Qed.

Lemma autodrop_free_frees_witness :
  exists w1 h m', AutoDrop.allocate 4 1 (AutoDrop.new_world) = Some (w1, h) /\
    AutoDrop.store (AutoDrop.free 4 h w1) = Some m' /\ len_of 4 m' (AutoDrop.inner h) = None.
Proof.
  destruct (autodrop_free_frees 4 1 AutoDrop.new_world
    (fst (default (AutoDrop.new_world, AutoDrop.mkId 0 0) (AutoDrop.allocate 4 1 AutoDrop.new_world)))
    (snd (default (AutoDrop.new_world, AutoDrop.mkId 0 0) (AutoDrop.allocate 4 1 AutoDrop.new_world)))
    new_mem) as (m' & H1 & H2 & _); [lia|reflexivity|vm_compute; reflexivity|].
  eexists _, _, m'. split_and!; [vm_compute; reflexivity|exact H1|exact H2].
Defined.

(** X11: growing a handle through [AutoDropping::resize] moves only the
    handle passed in to the fresh key [next_key]; a clone made before
    keeps the old inner key, which is dead afterwards, so [get] through the
    clone panics. *)
Theorem autodrop_resize_grow_strands_clone (esize n : nat) (w w1 w2 : AutoDrop.World)
  (h h2 h' : AutoDrop.AutoDroppingAddressId) (m : SimpleGpuMemory) (r : AddressRange) :
  AutoDrop.store w = Some m -> (forall k, next_key m <= k -> used_ranges m !! k = None) ->
  used_ranges m !! AutoDrop.inner h = Some r -> range_len r < n * esize ->
  AutoDrop.clone h w = (w1, h2) -> AutoDrop.resize esize h n w1 = Some (w2, h') ->
  AutoDrop.inner h2 = AutoDrop.inner h /\ AutoDrop.inner h' = next_key m /\
  AutoDrop.get h2 w2 = None.
Proof.
  intros Hs Hfresh Hr Hlt. unfold AutoDrop.clone, AutoDrop.arc_new. intros [= <- <-].
  unfold AutoDrop.resize. cbn. rewrite Hs. unfold resize. rewrite Hr.
  rewrite (proj2 (Nat.compare_lt_iff _ _) Hlt).
  destruct (allocate_range esize n (free esize (AutoDrop.inner h) m)) as (r' & Hu & _ & Hkey & _).
  destruct (free_data esize (AutoDrop.inner h) m) as (_ & Hnk & Hdel).
  destruct (allocate esize n (free esize (AutoDrop.inner h) m)) as [m2 k2] eqn:Ea.
  cbn in Hu, Hkey. intros [= <- <-]. cbn.
  assert (Hne : AutoDrop.inner h <> next_key m).
  { intros Heq. rewrite (Hfresh (AutoDrop.inner h)) in Hr; [discriminate|lia]. }
  split_and!; [reflexivity|rewrite Hkey, Hnk; reflexivity|].
  unfold AutoDrop.get. cbn. unfold handle_content.
  rewrite Hu, Hnk, lookup_insert_ne by congruence. rewrite Hdel, lookup_delete_eq. reflexivity.
Qed.

Lemma autodrop_resize_grow_strands_clone_witness :
  AutoDrop.get (AutoDrop.mkId 0 1)
    (fst (default (AutoDrop.new_world, AutoDrop.mkId 0 0)
       (AutoDrop.resize 4 (AutoDrop.mkId 0 0) 2
          (AutoDrop.mkWorld (Some three_allocs) (<[1 := 1]> {[0 := 1]}) 2)))) = None.
Proof.
  destruct (count_inv_reachable 4 three_allocs ltac:(lia) three_allocs_reachable) as (_ & _ & Hf).
  refine (proj2 (proj2 (autodrop_resize_grow_strands_clone 4 2
    (AutoDrop.mkWorld (Some three_allocs) {[0 := 1]} 1)
    (AutoDrop.mkWorld (Some three_allocs) (<[1 := 1]> {[0 := 1]}) 2) _
    (AutoDrop.mkId 0 0) (AutoDrop.mkId 0 1) _ three_allocs (mkRange 0 4)
    eq_refl Hf _ _ _ _))).
  - vm_compute. reflexivity.
  - vm_compute. lia.
  - vm_compute. reflexivity.
  - vm_compute. reflexivity.
Defined.

(** *** The sort strategies *)

(** Total byte length of the ranges of a list of registry entries. *)
Definition plen (l : list (nat * AddressRange)) : nat :=
  foldr (fun kr acc => range_len kr.2 + acc) 0 l.

Lemma plen_app (l1 l2 : list (nat * AddressRange)) : plen (l1 ++ l2) = plen l1 + plen l2.
Proof. unfold plen. induction l1 as [|kr l1 IH]; cbn; [reflexivity|]. rewrite IH. lia. Qed.

Lemma plen_perm (l1 l2 : list (nat * AddressRange)) : l1 ≡ₚ l2 -> plen l1 = plen l2.
Proof. induction 1; unfold plen in *; cbn; lia. Qed.

Lemma plen_take_mono (l : list (nat * AddressRange)) (i j : nat) :
  j <= i -> plen (take j l) <= plen (take i l).
Proof.
  intros Hji. replace i with (j + (i - j)) by lia. rewrite <- take_take_drop, plen_app. lia.
Qed.

#[global] Instance key_le_trans (descending : bool) : Transitive (key_le descending).
Proof. intros x y z. unfold key_le. lia. Qed.

#[global] Instance key_le_total (descending : bool) : Total (key_le descending).
Proof. intros x y. unfold key_le. lia. Qed.

Lemma StronglySorted_lookup {A} (R : relation A) (l : list A) (i j : nat) (x y : A) :
  StronglySorted R l -> l !! i = Some x -> l !! j = Some y -> i < j -> R x y.
Proof.
  intros HS. revert i j. induction HS as [|z l HS IH HF]; intros i j Hi Hj Hij;
    [rewrite lookup_nil in Hi; discriminate|].
  destruct i as [|i], j as [|j]; cbn in Hi, Hj; try lia.
  - injection Hi as <-. rewrite Forall_forall in HF. apply HF.
    apply list_elem_of_lookup. exists j. exact Hj.
  - apply (IH i j); [exact Hi|exact Hj|lia].
Qed.

Lemma sort_loop_bounds (d : list byte) (l : list (nat * AddressRange)) nd u x :
  sort_loop d l nd u = Some x -> Forall (fun kr => rstart kr.2 <= rend kr.2 <= length d) l.
Proof.
  revert nd u. induction l as [|[k r] l IH]; intros nd u; cbn; [constructor|].
  destruct (Nat.leb_spec (rstart r) (rend r)); [|discriminate].
  destruct (Nat.leb_spec (rend r) (length d)); [|discriminate]. cbn.
  intros Hl. constructor; [cbn; lia|]. exact (IH _ _ Hl).
Qed.

Lemma sort_loop_spec (d : list byte) (l : list (nat * AddressRange)) nd u :
  NoDup l.*1 -> Forall (fun kr => rstart kr.2 <= rend kr.2 <= length d) l ->
  exists u', sort_loop d l nd u = Some (nd ++ concat ((fun kr => slice d kr.2) <$> l), u') /\
    (forall k, k ∉ l.*1 -> u' !! k = u !! k) /\
    (forall i k r, l !! i = Some (k, r) ->
       u' !! k = Some (mkRange (length nd + plen (take i l))
                               (length nd + plen (take i l) + range_len r))).
Proof.
  revert nd u. induction l as [|[k r] l IH]; intros nd u Hnd Hb; cbn.
  - exists u. rewrite app_nil_r. split_and!; [reflexivity|reflexivity|].
    intros i k r Hi. rewrite lookup_nil in Hi. discriminate.
  - apply NoDup_cons in Hnd as [Hk Hnd]. apply Forall_cons in Hb as [[H1 H2] Hb]. cbn in H1, H2.
    rewrite (proj2 (Nat.leb_le _ _) H1), (proj2 (Nat.leb_le _ _) H2). cbn.
    destruct (IH (nd ++ slice d r) (<[k := mkRange (length nd) (length (nd ++ slice d r))]> u) Hnd Hb)
      as (u' & Hl & Hout & Hin).
    assert (Hls : length (nd ++ slice d r) = length nd + range_len r)
      by (rewrite length_app, length_slice by exact H2; reflexivity).
    exists u'. split_and!.
    + rewrite Hl, <- app_assoc. reflexivity.
    + intros k0 Hk0. apply not_elem_of_cons in Hk0 as [Hne Hk0].
      rewrite Hout by exact Hk0. apply lookup_insert_ne. congruence.
    + intros [|i] k0 r0 Hi; cbn in Hi.
      * injection Hi as <- <-. rewrite Hout by exact Hk. rewrite lookup_insert_eq, Hls.
        cbn. f_equal. f_equal; lia.
      * rewrite (Hin i k0 r0 Hi), Hls. cbn. fold (plen (take i l)). f_equal. f_equal; lia.
Qed.

Lemma slice_concat_at (d nd : list byte) (A B : list (nat * AddressRange)) (k : nat) (r : AddressRange) :
  Forall (fun kr => rstart kr.2 <= rend kr.2 <= length d) A -> rend r <= length d ->
  slice (nd ++ concat ((fun kr => slice d kr.2) <$> (A ++ (k, r) :: B)))
        (mkRange (length nd + plen A) (length nd + plen A + range_len r)) = slice d r.
Proof.
  intros HA Hr. rewrite fmap_app, fmap_cons, concat_app. cbn [concat].
  assert (HX : length (concat ((fun kr => slice d kr.2) <$> A)) = plen A).
  { apply length_slices. apply Forall_forall. exact HA. }
  unfold slice at 1. cbn [rstart rend].
  replace (length nd + plen A) with (length (nd ++ concat ((fun kr => slice d kr.2) <$> A)))
    by (rewrite length_app, HX; reflexivity).
  rewrite app_assoc, drop_app_length. unfold range_len at 1. cbn [rstart rend].
  rewrite (take_app_length' _ _ _); [reflexivity|]. rewrite length_slice by exact Hr.
  unfold range_len. cbn [snd]. lia.
Qed.

(** The facts about [sort] shared by the two theorems below. *)
Lemma sort_spec (descending : bool) (s : SimpleGpuMemory) :
  let L := sorted_by_key descending (map_to_list (used_ranges s)) in
  (forall k r, used_ranges s !! k = Some r -> rstart r <= rend r <= length (data s)) ->
  L ≡ₚ map_to_list (used_ranges s) /\ NoDup L.*1 /\
  Forall (fun kr => rstart kr.2 <= rend kr.2 <= length (data s)) L.
Proof.
  intros L Hb. assert (Hp : L ≡ₚ map_to_list (used_ranges s)) by apply merge_sort_Permutation.
  split_and!; [exact Hp| |].
  - rewrite Hp. apply NoDup_fst_map_to_list.
  - apply Forall_forall. intros [k r] Hin. rewrite Hp in Hin.
    apply elem_of_map_to_list in Hin. exact (Hb k r Hin).
Qed.

(** X12: when every live range lies inside [data] (otherwise [sort]
    panics on [&self.data[range]]), [optimize(SortSizeDescending)] and
    [optimize(SortSizeAscending)] succeed without any call to the device
    buffer; the free list becomes empty, [data] holds exactly the live
    bytes, the element count and the [mutated] flag are unchanged, and
    every handle reads the same bytes as before. *)
Theorem sort_preserves_contents (descending : bool) (s : SimpleGpuMemory) :
  (forall k r, used_ranges s !! k = Some r -> rstart r <= rend r <= length (data s)) ->
  exists s', sort descending s = Some s' /\
    Strategies.optimize (if descending then Strategies.SortSizeDescending
                         else Strategies.SortSizeAscending) s = Some (s', []) /\
    available_ranges s' = [] /\ length (data s') = live_bytes (used_ranges s) /\
    allocated_count s' = allocated_count s /\ mutated s' = mutated s /\
    (forall k, handle_content s' k = handle_content s k).
Proof.
  intros Hb. pose proof (sort_spec descending s Hb) as (Hp & Hnd & HL).
  set (L := sorted_by_key descending (map_to_list (used_ranges s))) in *.
  destruct (sort_loop_spec (data s) L [] (used_ranges s) Hnd HL) as (u' & Hl & Hout & Hin).
  assert (Hs : sort descending s = Some (mkMem (concat ((fun kr => slice (data s) kr.2) <$> L)) []
                                               u' (next_key s) (allocated_count s) (mutated s))).
  { unfold sort. fold L. rewrite Hl. reflexivity. }
  assert (Hlen : length (concat ((fun kr => slice (data s) kr.2) <$> L)) = plen L)
    by (apply length_slices, Forall_forall, HL).
  eexists. split_and!; [exact Hs|destruct descending; cbn; rewrite Hs; reflexivity
                       |reflexivity| |reflexivity|reflexivity|].
  - cbn. rewrite Hlen, (plen_perm _ _ Hp). unfold live_bytes.
    rewrite <- (list_to_map_to_list (used_ranges s)) at 2.
    rewrite map_sum_list_to_map by apply NoDup_fst_map_to_list. reflexivity.
  - intros k. unfold handle_content. cbn.
    destruct (used_ranges s !! k) as [r|] eqn:Ek.
    + assert (HinL : (k, r) ∈ L) by (rewrite Hp; apply elem_of_map_to_list; exact Ek).
      apply list_elem_of_lookup in HinL as [i Hi].
      rewrite (Hin i k r Hi). cbn [length rstart rend Nat.add]. rewrite Hlen.
      destruct (Hb k r Ek) as [H1 H2].
      assert (Hsplit : L = take i L ++ (k, r) :: drop (S i) L) by (symmetry; apply take_drop_middle; exact Hi).
      assert (Hle : plen (take i L) + range_len r <= plen L).
      { rewrite Hsplit at 2. rewrite plen_app. cbn. lia. }
      pose proof (slice_concat_at (data s) [] (take i L) (drop (S i) L) k r
                    ltac:(apply Forall_take; exact HL) H2) as Hc.
      rewrite <- Hsplit in Hc. cbn [app length Nat.add] in Hc.
      rewrite (proj2 (Nat.leb_le (plen (take i L)) (plen (take i L) + range_len r))) by lia.
      rewrite (proj2 (Nat.leb_le (plen (take i L) + range_len r) (plen L))) by lia.
      rewrite (proj2 (Nat.leb_le _ _) H1), (proj2 (Nat.leb_le _ _) H2). cbn [andb].
      rewrite Hc. reflexivity.
    + rewrite Hout; [rewrite Ek; reflexivity|]. intros Hk. apply list_elem_of_fmap in Hk as ([k' r] & -> & HkL).
      rewrite Hp in HkL. apply elem_of_map_to_list in HkL. cbn in Ek. congruence.
Qed.

Lemma sort_preserves_contents_witness :
  exists s', sort false (free 4 1 three_allocs) = Some s' /\ length (data s') = 8.
Proof.
  destruct (sort_preserves_contents false (free 4 1 three_allocs)) as (s' & H1 & _ & _ & H4 & _).
  - intros k r H. destruct (decide (k < 3)) as [Hk|Hk].
    + destruct k as [|[|[|k]]]; [| |  |lia]; vm_compute in H; try discriminate;
        injection H as <-; vm_compute; lia.
    + destruct (count_inv_reachable 4 (free 4 1 three_allocs) ltac:(lia)
                  (reach_free 4 _ 1 three_allocs_reachable)) as (_ & _ & Hf).
      rewrite Hf in H; [discriminate|]. vm_compute. lia.
  - exists s'. split; [exact H1|]. rewrite H4. vm_compute. reflexivity.
Defined.

(** X13: after [sort(descending)] the live ranges are laid out by length:
    any range starting before another is at least as long when
    descending, and at most as long when ascending. *)
Theorem sort_orders_by_length (descending : bool) (s s' : SimpleGpuMemory)
  (k1 k2 : nat) (r1 r2 : AddressRange) :
  sort descending s = Some s' ->
  used_ranges s' !! k1 = Some r1 -> used_ranges s' !! k2 = Some r2 -> rstart r1 < rstart r2 ->
  if descending then range_len r2 <= range_len r1 else range_len r1 <= range_len r2.
Proof.
  intros Hs. unfold sort in Hs.
  destruct (sort_loop _ _ _ _) as [[nd u']|] eqn:E; [|discriminate].
  injection Hs as <-. cbn.
  assert (Hb : forall k r, used_ranges s !! k = Some r -> rstart r <= rend r <= length (data s)).
  { intros k r Hk. pose proof (sort_loop_bounds _ _ _ _ _ E) as HF.
    rewrite Forall_forall in HF. apply (HF (k, r)).
    unfold sorted_by_key. rewrite (merge_sort_Permutation _ _). apply elem_of_map_to_list. exact Hk. }
  pose proof (sort_spec descending s Hb) as (Hp & Hnd & HL).
  set (L := sorted_by_key descending (map_to_list (used_ranges s))) in *.
  destruct (sort_loop_spec (data s) L [] (used_ranges s) Hnd HL) as (u'' & Hl & Hout & Hin).
  fold L in E. rewrite Hl in E. injection E as _ <-.
  assert (Hpos : forall k r, u'' !! k = Some r ->
            exists i r0, L !! i = Some (k, r0) /\ rstart r = plen (take i L) /\ range_len r = range_len r0).
  { intros k r Hk. destruct (decide (k ∈ L.*1)) as [HkL|HkL].
    - apply list_elem_of_fmap in HkL as ([k' r0] & Heq & Hkr). cbn in Heq. subst k'.
      apply list_elem_of_lookup in Hkr as [i Hi]. exists i, r0.
      rewrite (Hin i k r0 Hi) in Hk. injection Hk as <-. unfold range_len. cbn. split_and!; [exact Hi|reflexivity|lia].
    - rewrite Hout in Hk by exact HkL. exfalso. apply HkL.
      apply list_elem_of_fmap. exists (k, r). split; [reflexivity|].
      rewrite Hp. apply elem_of_map_to_list. exact Hk. }
  intros H1 H2 Hlt.
  destruct (Hpos _ _ H1) as (i & q1 & Hi & Hs1 & Hl1).
  destruct (Hpos _ _ H2) as (j & q2 & Hj & Hs2 & Hl2).
  assert (Hij : i < j).
  { destruct (decide (i < j)); [assumption|]. pose proof (plen_take_mono L i j). lia. }
  assert (HS : StronglySorted (key_le descending) L) by (unfold L, sorted_by_key; apply StronglySorted_merge_sort; typeclasses eauto).
  pose proof (StronglySorted_lookup _ _ _ _ _ _ HS Hi Hj Hij) as Hk.
  unfold key_le, sort_key in Hk. cbn in Hk. rewrite Hl1, Hl2.
  destruct descending; lia.
Qed.

Lemma sort_orders_by_length_witness :
  exists s' r0, sort true (fst (allocate 4 2 three_allocs)) = Some s' /\
    used_ranges s' !! 3 = Some (mkRange 0 8) /\ used_ranges s' !! 0 = Some r0 /\
    range_len r0 <= range_len (mkRange 0 8).
Proof.
  eexists _, _. split_and!; [vm_compute; reflexivity|vm_compute; reflexivity|vm_compute; reflexivity|].
  eapply (sort_orders_by_length true (fst (allocate 4 2 three_allocs)) _ 3 0);
    [vm_compute; reflexivity|vm_compute; reflexivity|vm_compute; reflexivity|vm_compute; lia].
Defined.

(** *** Byte size after compaction *)

Lemma live_bytes_count (esize : nat) (u : gmap nat AddressRange) :
  0 < esize -> (forall k r, u !! k = Some r -> exists m, range_len r = m * esize) ->
  live_bytes u = live_count esize u * esize.
Proof.
  intros Hpos. induction u as [|i x m Hi IH] using map_ind; intros Hmul.
  - unfold live_bytes, live_count, map_sum. rewrite !map_fold_empty. lia.
  - unfold live_bytes, live_count in *. rewrite !map_sum_insert_fresh by exact Hi.
    destruct (Hmul i x (lookup_insert_eq _ _ _)) as [c Hc].
    rewrite IH.
    + rewrite Hc, Nat.div_mul by lia. lia.
    + intros k r Hk. apply (Hmul k r). rewrite lookup_insert_ne; [exact Hk|]. intros ->. congruence.
Qed.

Lemma fix_sequence_length (s : SimpleGpuMemory) (lay : list (Seg * AddressRange)) :
  layout lay s ->
  exists s', fix_sequence s = Some s' /\ length (data s') = live_bytes (used_ranges s) /\
    allocated_count s' = allocated_count s /\ mutated s' = mutated s.
Proof.
  intros (Ht & Hav & Hnd & Hu).
  assert (Hd : desc lay (data s) (used_ranges s)).
  { split_and!; [exact Ht|exact Hnd|]. intros k r. rewrite Hu. symmetry.
    apply elem_of_list_to_map. exact Hnd. }
  destruct (fix_loop_layout _ lay _ _ Hd (eq_sym Hav))
    as (lay' & d' & u' & Hl & (Ht' & _ & _) & Hf' & HF).
  exists (mkMem d' [] u' (next_key s) (allocated_count s) (mutated s)).
  split_and!; [unfold fix_sequence; rewrite Hl; reflexivity| |reflexivity|reflexivity]. cbn.
  assert (Hdata : d' = concat ((fun kr => slice (data s) kr.2) <$> used_of lay)).
  { rewrite (slices_same_content _ _ _ _ HF), <- (slices_no_free _ _ Hf').
    rewrite (tiles_concat d' 0 _ lay' Ht'), Nat.sub_0_r, drop_0, take_ge by lia. reflexivity. }
  rewrite Hdata, length_slices.
  - unfold live_bytes. rewrite Hu, map_sum_list_to_map by exact Hnd. reflexivity.
  - intros [k r] Hin. exact (used_of_bounds _ _ _ _ Ht Hin).
Qed.

(** X14: on a tiled state satisfying the counting invariant,
    [optimize(Truncate)] and a pending [upload] hand the device exactly
    [size()] bytes: afterwards [size()], the length [buffer_slice] views,
    equals [data.len()]. *)
Theorem truncate_size_exact (esize : nat) (s : SimpleGpuMemory) (lay : list (Seg * AddressRange)) :
  0 < esize -> count_inv esize s -> layout lay s ->
  exists s', Strategies.optimize Strategies.Truncate s = Some (s', [CreateBufferInit (data s')]) /\
    size esize s' = length (data s') /\
    (mutated s = true -> upload s = Some (set_mutated false s', [UploadOrResize (data s')])).
Proof.
  intros Hpos (Hmul & Hcnt & _) Hl.
  destruct (fix_sequence_length s lay Hl) as (s' & Hf & Hlen & Hac & _).
  exists s'. split_and!.
  - cbn. rewrite Hf. reflexivity.
  - unfold size, len. rewrite Hlen, Hac, Hcnt. symmetry. apply live_bytes_count; [exact Hpos|exact Hmul].
  - intros Hm. unfold upload. rewrite Hm, Hf. reflexivity.
Qed.

Lemma truncate_size_exact_witness :
  exists s', Strategies.optimize Strategies.Truncate (free 4 1 three_allocs)
               = Some (s', [CreateBufferInit (data s')]) /\
             size 4 s' = length (data s').
Proof.
  assert (Hl : layout middle_freed_layout (free 4 1 three_allocs)).
  { split_and!; [vm_compute; reflexivity|vm_compute; reflexivity| |vm_compute; reflexivity].
    apply (bool_decide_eq_true_1 _). vm_compute. reflexivity. }
  destruct (truncate_size_exact 4 (free 4 1 three_allocs) middle_freed_layout ltac:(lia)
              (count_inv_reachable 4 _ ltac:(lia) (reach_free 4 _ 1 three_allocs_reachable)) Hl)
    as (s' & H1 & H2 & _).
  exists s'. split; [exact H1|exact H2].
Defined.
